(** * sex.c: factorial, primality test, in-place string reversal and the
    demonstration driver, embedded in Rocq.

    Conventions of the embedding.
    - [int] is the 32-bit two's-complement signed integer: a [Z] kept in
      [int_min .. int_max].  ISO C leaves signed overflow undefined; the
      embedding follows what the program does on its usual targets and wraps
      around ([wrap]), which is also what the specification calls "silently
      overflows the integer representation".
    - Operations that trap or read outside an object (remainder by zero, an
      index outside the buffer, a string without terminator) yield [Undef].
    - Loops and recursion are driven by a [nat] of fuel; [NoFuel] is returned
      when it runs out.  Every entry point comes with a wrapper that supplies
      enough fuel, and with the theorem that this fuel is enough. *)

From Stdlib Require Import ZArith Lia List Ascii String DecimalString.
From Stdlib Require Import Floats.SpecFloat.
From stdpp Require Import base tactics option list strings.

Local Open Scope Z_scope.

(** ** Outcomes *)

Inductive outcome (A : Type) : Type :=
| Val (a : A)
| Undef
| NoFuel.
Arguments Val {A} a.
Arguments Undef {A}.
Arguments NoFuel {A}.

Global Instance outcome_ret : MRet outcome := λ A a, Val a.
Global Instance outcome_bind : MBind outcome := λ A B f m,
  match m with
  | Val a => f a
  | Undef => Undef
  | NoFuel => NoFuel
  end.

(** ** The [int] type *)

Definition int_min : Z := -2147483648.
Definition int_max : Z := 2147483647.

Definition in_int (z : Z) : Prop := int_min <= z <= int_max.

(** Reduction of a mathematical integer to its 32-bit signed representative. *)
Definition wrap (z : Z) : Z := (z + 2147483648) mod 4294967296 - 2147483648.

Definition int_add (a b : Z) : Z := wrap (a + b).
Definition int_sub (a b : Z) : Z := wrap (a - b).
Definition int_mul (a b : Z) : Z := wrap (a * b).

(** [a / b] and [a % b] truncate towards zero; a zero divisor and
    [INT_MIN / -1] trap. *)
Definition int_div (a b : Z) : outcome Z :=
  if b =? 0 then Undef
  else if (b =? -1) && (a =? int_min) then Undef
  else Val (a ÷ b).

Definition int_rem (a b : Z) : outcome Z :=
  if b =? 0 then Undef
  else if (b =? -1) && (a =? int_min) then Undef
  else Val (Z.rem a b).

(** ** factorial *)

Fixpoint factorial_fuel (fuel : nat) (n : Z) : outcome Z :=
  match fuel with
  | O => NoFuel
  | S fuel' =>
      if n <=? 1 then Val 1
      else r ← factorial_fuel fuel' (int_sub n 1); Val (int_mul n r)
  end.

(** Nesting depth of the calls [factorial n] makes, itself included. *)
Definition factorial_depth (n : Z) : nat := S (Z.to_nat (n - 1)).

Definition factorial (n : Z) : outcome Z := factorial_fuel (factorial_depth n) n.

(** The mathematical factorial, for comparison. *)
Fixpoint fact_Z (n : nat) : Z :=
  match n with
  | O => 1
  | S k => Z.of_nat (S k) * fact_Z k
  end.

(** ** isPrime *)

(** The [for] loop of [isPrime], entered with the current value of [i].
    The two remainders are evaluated left to right and the second one only
    when the first is not zero, as [||] does. *)
Fixpoint isPrime_loop (fuel : nat) (num i : Z) : outcome Z :=
  match fuel with
  | O => NoFuel
  | S fuel' =>
      if int_mul i i <=? num then
        r1 ← int_rem num i;
        if r1 =? 0 then Val 0
        else
          r2 ← int_rem num (int_add i 2);
          if r2 =? 0 then Val 0
          else isPrime_loop fuel' num (int_add i 6)
      else Val 1
  end.

Definition isPrime_fuel (fuel : nat) (num : Z) : outcome Z :=
  if num <=? 1 then Val 0
  else if num <=? 3 then Val 1
  else
    r2 ← int_rem num 2;
    if r2 =? 0 then Val 0
    else
      r3 ← int_rem num 3;
      if r3 =? 0 then Val 0
      else isPrime_loop fuel num 5.

(** [i] grows by 6 each round and never passes [num], so [num] rounds are
    more than enough. *)
Definition isPrime (num : Z) : outcome Z := isPrime_fuel (Z.to_nat num) num.

(** Primality as the specification words it: greater than 1 and without a
    divisor other than 1 and itself. *)
Definition is_prime (n : Z) : Prop :=
  1 < n ∧ ∀ d, 0 < d → (d | n) → d = 1 ∨ d = n.

(** Least argument for which the loop evaluates an [i * i] that does not fit
    an [int]: [46337 * 46337]. *)
Definition isPrime_overflow_from : Z := 2147117569.

(** No candidate [6 j + 5], [6 j + 7] with [j < k] divides [num]. *)
Definition tested (num k : Z) : Prop :=
  ∀ j, 0 <= j < k → ¬ (6 * j + 5 | num) ∧ ¬ (6 * j + 7 | num).

(** The same, by running the divisions. *)
Fixpoint testedb (num : Z) (k : nat) : bool :=
  match k with
  | O => true
  | S k' =>
      testedb num k'
      && negb (Z.rem num (6 * Z.of_nat k' + 5) =? 0)
      && negb (Z.rem num (6 * Z.of_nat k' + 7) =? 0)
  end.

(** ** reverseString *)

(** A [char *] is modelled by the characters of the object it points into,
    from the pointer to the end of the object. *)
Definition nul : ascii := Ascii.zero.

(** [strlen]: the number of characters before the first terminator.  A
    buffer without terminator makes it read past the object. *)
Fixpoint strlen (str : list ascii) : outcome nat :=
  match str with
  | [] => Undef
  | c :: rest =>
      if Ascii.eqb c nul then Val O
      else n ← strlen rest; Val (S n)
  end.

(** Conversion of the [size_t] result to [int]: reduction modulo [2^32]. *)
Definition int_of_size (n : nat) : Z := wrap (Z.of_nat n).

(** [arr[i]] as an rvalue and as the target of an assignment; an index
    outside the object is undefined. *)
Definition load {A} (arr : list A) (i : Z) : outcome A :=
  if (0 <=? i) && (i <? Z.of_nat (length arr)) then
    match arr !! Z.to_nat i with
    | Some c => Val c
    | None => Undef
    end
  else Undef.

Definition store {A} (arr : list A) (i : Z) (c : A) : outcome (list A) :=
  if (0 <=? i) && (i <? Z.of_nat (length arr)) then Val (<[Z.to_nat i := c]> arr)
  else Undef.

Fixpoint reverseString_loop (fuel : nat) (str : list ascii) (len i : Z)
  : outcome (list ascii) :=
  match fuel with
  | O => NoFuel
  | S fuel' =>
      half ← int_div len 2;
      if i <? half then
        temp ← load str i;
        c ← load str (int_sub (int_sub len 1) i);
        str1 ← store str i c;
        str2 ← store str1 (int_sub (int_sub len 1) i) temp;
        reverseString_loop fuel' str2 len (int_add i 1)
      else Val str
  end.

(** The buffer after the call.  The loop makes at most [len / 2] rounds, and
    [len] is at most the size of the buffer. *)
Definition reverseString (str : list ascii) : outcome (list ascii) :=
  n ← strlen str;
  reverseString_loop (S (length str)) str (int_of_size n) 0.

(** The buffer with its first [m] characters in reverse order. *)
Definition reverse_prefix (m : nat) (str : list ascii) : list ascii :=
  reverse (take m str) ++ drop m str.

(** The buffer with the part between [i] and [len - i] in reverse order:
    what remains to be done when the loop is at [i]. *)
Definition reverse_middle (len i : nat) (cur : list ascii) : list ascii :=
  take i cur ++ reverse (take (len - 2 * i) (drop i cur)) ++ drop (len - i) cur.

(** A C string literal as the initial value of a [char] array. *)
Definition c_string (s : string) : list ascii := list_ascii_of_string s ++ [nul].

(** What the string reverser is meant to achieve on a buffer: it returns, and
    character [i] of the result is character [len - 1 - i] of the original,
    for every [i] below the length [len]. *)
Definition reversed_in_place (str : list ascii) : Prop :=
  ∃ len str',
    strlen str = Val len ∧ reverseString str = Val str' ∧
    ∀ i : nat, (i < len)%nat → str' !! i = str !! (len - 1 - i)%nat.

(** A string of [2^31] characters: one [a] followed by [b]s. *)
Definition long_string : list ascii :=
  "a"%char :: replicate (Z.to_nat 2147483647) "b"%char ++ [nul].

(** ** Formatted output *)

Definition nl : string := String "010"%char EmptyString.

(** [%d] *)
Definition fmt_d (z : Z) : string := NilZero.string_of_int (Z.to_int z).

(** [%s]: the characters up to the terminator. *)
Fixpoint fmt_s (str : list ascii) : outcome string :=
  match str with
  | [] => Undef
  | c :: rest =>
      if Ascii.eqb c nul then Val EmptyString
      else s ← fmt_s rest; Val (String c s)
  end.

(** [float] is IEEE 754 binary32: 24 bits of precision, [emax = 128]. *)
Definition float_of_int (z : Z) : spec_float := binary_normalize 24 128 z 0 false.
Definition float_div (x y : spec_float) : spec_float := SFdiv 24 128 x y.

(** [n / d] rounded to the nearest integer, ties to even ([0 <= n], [0 < d]). *)
Definition round_half_even (n d : Z) : Z :=
  let q := n / d in
  match 2 * (n mod d) ?= d with
  | Lt => q
  | Gt => q + 1
  | Eq => if Z.even q then q else q + 1
  end.

Definition fmt_sign (s : bool) : string := if s then "-" else "".

Definition two_digits (z : Z) : string := fmt_d (z / 10) +:+ fmt_d (z mod 10).

(** [%.2f]: the value (a [float] argument is passed as a [double] of the same
    value) rounded to hundredths. *)
Definition fmt_f2 (x : spec_float) : string :=
  match x with
  | S754_zero s => fmt_sign s +:+ "0.00"
  | S754_infinity s => fmt_sign s +:+ "inf"
  | S754_nan => "nan"
  | S754_finite s m e =>
      let hundredths :=
        if 0 <=? e then Z.pos m * 100 * 2 ^ e
        else round_half_even (Z.pos m * 100) (2 ^ (- e)) in
      fmt_sign s +:+ fmt_d (hundredths / 100) +:+ "." +:+ two_digits (hundredths mod 100)
  end.

(** ** main *)

(** [for (int i = 1; i <= 10; i++) printf("%d ", i);] entered with the
    current [i]; the result is the text written. *)
Fixpoint numbers_loop (fuel : nat) (i : Z) (out : string) : outcome string :=
  match fuel with
  | O => NoFuel
  | S fuel' =>
      if i <=? 10 then numbers_loop fuel' (int_add i 1) (out +:+ fmt_d i +:+ " ")
      else Val out
  end.

(** The text the loop demonstration writes between its label and the
    newline. *)
Definition numbers_1_10 : outcome string := numbers_loop 11 1 "".

Definition numbers : list Z := [3; 7; 1; 9; 4; 6; 2; 8; 5].

(** [for (int i = 0; i < size; i++) sum += numbers[i];] *)
Fixpoint sum_loop (fuel : nat) (arr : list Z) (size i sum : Z) : outcome Z :=
  match fuel with
  | O => NoFuel
  | S fuel' =>
      if i <? size then
        x ← load arr i;
        sum_loop fuel' arr size (int_add i 1) (int_add sum x)
      else Val sum
  end.

(** [sizeof(numbers) / sizeof(numbers[0])] *)
Definition numbers_size : Z := Z.of_nat (length numbers).

Definition array_sum : outcome Z := sum_loop 10 numbers numbers_size 0 0.

(** [(float)sum / size] *)
Definition array_average (sum size : Z) : spec_float :=
  float_div (float_of_int sum) (float_of_int size).

(** The driver: what it writes to standard output and the status it
    returns. *)
Definition main : outcome (string * Z) :=
  let out := "Welcome to the C Programming Demo!" +:+ nl in
  let out := out +:+ "===================================" +:+ nl +:+ nl in
  let num := 5 in
  f ← factorial num;
  let out := out +:+ "1. Factorial of " +:+ fmt_d num +:+ ": " +:+ fmt_d f +:+ nl in
  let testNum := 17 in
  p ← isPrime testNum;
  let out := out +:+ "2. Is " +:+ fmt_d testNum +:+ " prime? "
                 +:+ (if p =? 0 then "No" else "Yes") +:+ nl in
  let text := c_string "Hello World" in
  s ← fmt_s text;
  let out := out +:+ "3. Original string: " +:+ s +:+ nl in
  text ← reverseString text;
  s ← fmt_s text;
  let out := out +:+ "   Reversed string: " +:+ s +:+ nl in
  let out := out +:+ "4. Numbers 1-10: " in
  line ← numbers_1_10;
  let out := out +:+ line in
  let out := out +:+ nl in
  let size := numbers_size in
  sum ← array_sum;
  let out := out +:+ "5. Array sum: " +:+ fmt_d sum +:+ nl in
  let out := out +:+ "   Array average: " +:+ fmt_f2 (array_average sum size) +:+ nl in
  let out := out +:+ nl +:+ "Program completed successfully!" +:+ nl in
  Val (out, 0).

(** The text of a complete run. *)
Definition expected_output : string :=
  "Welcome to the C Programming Demo!" +:+ nl +:+
  "===================================" +:+ nl +:+
  nl +:+
  "1. Factorial of 5: 120" +:+ nl +:+
  "2. Is 17 prime? Yes" +:+ nl +:+
  "3. Original string: Hello World" +:+ nl +:+
  "   Reversed string: dlroW olleH" +:+ nl +:+
  "4. Numbers 1-10: 1 2 3 4 5 6 7 8 9 10 " +:+ nl +:+
  "5. Array sum: 45" +:+ nl +:+
  "   Array average: 5.00" +:+ nl +:+
  nl +:+
  "Program completed successfully!" +:+ nl.

(** ** Arithmetic without wrap-around *)

(** ISO C gives no meaning to a signed [+], [-] or [*] whose mathematical
    result is not representable.  [checked] is the outcome of such an
    operation under that reading, and the [_strict] functions are [factorial]
    and [isPrime] with every arithmetic operation read this way. *)
Definition checked (z : Z) : outcome Z :=
  if (int_min <=? z) && (z <=? int_max) then Val z else Undef.

Fixpoint factorial_strict_fuel (fuel : nat) (n : Z) : outcome Z :=
  match fuel with
  | O => NoFuel
  | S fuel' =>
      if n <=? 1 then Val 1
      else
        m ← checked (n - 1);
        r ← factorial_strict_fuel fuel' m;
        checked (n * r)
  end.

Definition factorial_strict (n : Z) : outcome Z :=
  factorial_strict_fuel (factorial_depth n) n.

Fixpoint isPrime_loop_strict (fuel : nat) (num i : Z) : outcome Z :=
  match fuel with
  | O => NoFuel
  | S fuel' =>
      sq ← checked (i * i);
      if sq <=? num then
        r1 ← int_rem num i;
        if r1 =? 0 then Val 0
        else
          i2 ← checked (i + 2);
          r2 ← int_rem num i2;
          if r2 =? 0 then Val 0
          else
            i6 ← checked (i + 6);
            isPrime_loop_strict fuel' num i6
      else Val 1
  end.

Definition isPrime_strict_fuel (fuel : nat) (num : Z) : outcome Z :=
  if num <=? 1 then Val 0
  else if num <=? 3 then Val 1
  else
    r2 ← int_rem num 2;
    if r2 =? 0 then Val 0
    else
      r3 ← int_rem num 3;
      if r3 =? 0 then Val 0
      else isPrime_loop_strict fuel num 5.

Definition isPrime_strict (num : Z) : outcome Z :=
  isPrime_strict_fuel (Z.to_nat num) num.

(** The mathematical sum of an array, for comparison. *)
Definition sum_Z (arr : list Z) : Z := foldr Z.add 0 arr.

(** * Properties *)

(** ** Arithmetic of [wrap] *)

(** Goals about the bounds of [int]. *)
Ltac int_range := unfold in_int, int_min, int_max in *; lia.

Lemma wrap_in_int z : in_int (wrap z).
Proof.
  unfold in_int, wrap, int_min, int_max.
  pose proof (Z.mod_pos_bound (z + 2147483648) 4294967296). lia.
Qed.

Lemma wrap_id z : in_int z → wrap z = z.
Proof. unfold in_int, wrap, int_min, int_max. intros. rewrite Z.mod_small; lia. Qed.

Lemma wrap_le_int_max z : wrap z <= int_max.
Proof. apply wrap_in_int. Qed.

(** ** factorial: base case, recurrence, termination *)

Lemma factorial_fuel_unfold fuel n :
  factorial_fuel (S fuel) n =
    if n <=? 1 then Val 1
    else r ← factorial_fuel fuel (int_sub n 1); Val (int_mul n r).
Proof. reflexivity. Qed.

Lemma factorial_fuel_le_1 fuel n : n <= 1 → factorial_fuel (S fuel) n = Val 1.
Proof. intros. rewrite factorial_fuel_unfold. by rewrite (proj2 (Z.leb_le n 1)). Qed.

Lemma factorial_fuel_gt_1 fuel n :
  2 <= n <= int_max →
  factorial_fuel (S fuel) n = r ← factorial_fuel fuel (n - 1); Val (int_mul n r).
Proof.
  intros [Hlo Hhi]. rewrite factorial_fuel_unfold.
  rewrite (proj2 (Z.leb_gt n 1)) by lia.
  unfold int_sub. rewrite wrap_id; [done|int_range].
Qed.

(** With the fuel of [factorial_depth], or more, the recursion returns. *)
Lemma factorial_fuel_returns n fuel :
  n <= int_max → (factorial_depth n <= fuel)%nat →
  ∃ v, factorial_fuel fuel n = Val v ∧ in_int v.
Proof.
  revert n. induction fuel as [|fuel IH]; intros n Hmax Hfuel.
  - unfold factorial_depth in Hfuel. lia.
  - destruct (Z_le_gt_dec n 1) as [Hle|Hgt].
    + exists 1. rewrite factorial_fuel_le_1 by done.
      split; [done|int_range].
    + rewrite factorial_fuel_gt_1 by lia.
      destruct (IH (n - 1)) as (r & Hr & _); [lia| |].
      { unfold factorial_depth in *. lia. }
      rewrite Hr. exists (int_mul n r). split; [done|apply wrap_in_int].
Qed.

(** The result does not depend on how much fuel was left over. *)
Lemma factorial_fuel_mono n fuel fuel' v :
  (fuel <= fuel')%nat → factorial_fuel fuel n = Val v → factorial_fuel fuel' n = Val v.
Proof.
  revert n fuel' v. induction fuel as [|fuel IH]; intros n fuel' v Hle Hv; [done|].
  destruct fuel' as [|fuel']; [lia|].
  rewrite factorial_fuel_unfold in *. destruct (n <=? 1); [done|].
  destruct (factorial_fuel fuel (int_sub n 1)) as [r| |] eqn:Hr; try done.
  by rewrite (IH _ fuel' r) by (done || lia).
Qed.

Lemma factorial_depth_pred n : 2 <= n → factorial_depth n = S (factorial_depth (n - 1)).
Proof. intros. unfold factorial_depth. lia. Qed.

Lemma factorial_unfold n :
  2 <= n <= int_max → factorial n = r ← factorial (n - 1); Val (int_mul n r).
Proof.
  intros Hn. unfold factorial. rewrite factorial_depth_pred by lia.
  by rewrite factorial_fuel_gt_1.
Qed.

Lemma factorial_fuel_starved n fuel :
  n <= int_max → (fuel < factorial_depth n)%nat → factorial_fuel fuel n = NoFuel.
Proof.
  revert n. induction fuel as [|fuel IH]; intros n Hmax Hfuel; [done|].
  assert (2 <= n) by (unfold factorial_depth in Hfuel; lia).
  rewrite factorial_fuel_gt_1 by lia.
  rewrite IH; [done|lia|]. rewrite factorial_depth_pred in Hfuel by done. lia.
Qed.

(** Values of [factorial] on the arguments whose factorial fits an [int]. *)
Lemma factorial_small n :
  0 <= n <= 12 → factorial n = Val (fact_Z (Z.to_nat n)).
Proof.
  intros Hn.
  assert (n = 0 ∨ n = 1 ∨ n = 2 ∨ n = 3 ∨ n = 4 ∨ n = 5 ∨ n = 6 ∨ n = 7 ∨
          n = 8 ∨ n = 9 ∨ n = 10 ∨ n = 11 ∨ n = 12) as Hcases by lia.
  repeat (destruct Hcases as [->|Hcases]; [vm_compute; reflexivity|]).
  subst n. vm_compute. reflexivity.
Qed.

(** From 13 on the product no longer fits and the result is the wrapped one. *)
Example factorial_13 :
  factorial 12 = Val 479001600 ∧ ¬ in_int (13 * 479001600) ∧
  factorial 13 = Val 1932053504.
Proof.
  split; [vm_compute; reflexivity|]. split; [|vm_compute; reflexivity].
  unfold in_int, int_max. lia.
Qed.

(** C3: for every integer [n <= 1] (0, 1 and every negative number)
    [factorial n] returns 1. *)
Theorem factorial_le_1 (n : Z) (Hn : n <= 1) : factorial n = Val 1.
Proof. unfold factorial, factorial_depth. by apply factorial_fuel_le_1. Qed.

Lemma factorial_le_1_witness :
  -7 <= 1 ∧ factorial (-7) = Val 1 ∧ factorial 0 = Val 1 ∧ factorial 1 = Val 1 ∧
  factorial int_min = Val 1.
Proof.
  split; [lia|]. split; [apply (factorial_le_1 (-7)); lia|].
  split; [apply (factorial_le_1 0); lia|].
  split; [apply (factorial_le_1 1); lia|].
  apply (factorial_le_1 int_min). unfold int_min. lia.
Defined.

(** C4: for every [n >= 2], [factorial n] is the [int] product of [n] and
    [factorial (n - 1)]; whenever that product is representable (no overflow),
    and in particular for every [n <= 12], it is the mathematical product
    [n * factorial (n - 1)].  [factorial 5 = 120]. *)
Theorem factorial_recurrence (n : Z) (Hn : 2 <= n <= int_max) :
  factorial 5 = Val 120 ∧
  ∃ r, factorial (n - 1) = Val r ∧
       factorial n = Val (int_mul n r) ∧
       (in_int (n * r) → factorial n = Val (n * r)) ∧
       (n <= 12 → in_int (n * r) ∧ n * r = fact_Z (Z.to_nat n)).
Proof.
  split; [vm_compute; reflexivity|].
  destruct (factorial_fuel_returns (n - 1) (factorial_depth (n - 1)))
    as (r & Hr & _); [lia|lia|].
  fold (factorial (n - 1)) in Hr.
  exists r. split; [done|].
  assert (factorial n = Val (int_mul n r)) as Hstep.
  { rewrite factorial_unfold by done. by rewrite Hr. }
  split; [done|]. split.
  - intros Hfit. rewrite Hstep. unfold int_mul. by rewrite wrap_id.
  - intros Hsmall.
    rewrite factorial_small in Hr by lia. injection Hr as <-.
    assert (n * fact_Z (Z.to_nat (n - 1)) = fact_Z (Z.to_nat n)) as ->.
    { replace (Z.to_nat n) with (S (Z.to_nat (n - 1))) by lia.
      cbn [fact_Z]. lia. }
    split; [|done].
    pose proof (factorial_small n ltac:(lia)) as Hv.
    destruct (factorial_fuel_returns n (factorial_depth n)) as (v & Hv' & Hin);
      [lia|lia|].
    fold (factorial n) in Hv'. rewrite Hv in Hv'. by injection Hv' as <-.
Qed.

Lemma factorial_recurrence_witness :
  2 <= 5 <= int_max ∧
  ∃ r, factorial (5 - 1) = Val r ∧ factorial 5 = Val (5 * r).
Proof.
  split; [unfold int_max; lia|].
  destruct (factorial_recurrence 5 ltac:(unfold int_max; lia))
    as (_ & r & Hr & _ & Hfit & Hsmall).
  exists r. split; [exact Hr|]. apply Hfit. apply Hsmall. lia.
Defined.

(** C9: [factorial] terminates on every [int]: with [factorial_depth n]
    nested calls (1 when [n <= 1], [n] otherwise, that is [n - 1] recursive
    calls) it returns a value, never traps, and with fewer it has not yet
    returned. *)
Theorem factorial_terminates (n : Z) (Hn : in_int n) :
  (∃ v, factorial n = Val v ∧ in_int v) ∧
  factorial_depth n = (if n <=? 1 then 1%nat else Z.to_nat n) ∧
  (∀ fuel, factorial_fuel fuel n = NoFuel ↔ (fuel < factorial_depth n)%nat) ∧
  (∀ fuel, factorial_fuel fuel n ≠ Undef).
Proof.
  destruct Hn as [Hlo Hhi]. split; [|split; [|split]].
  - by apply factorial_fuel_returns.
  - unfold factorial_depth. destruct (Z.leb_spec n 1); lia.
  - intros fuel. split.
    + intros Hstarved. destruct (Nat.lt_ge_cases fuel (factorial_depth n)) as [|Hge]; [done|].
      destruct (factorial_fuel_returns n fuel Hhi Hge) as (v & Hv & _). congruence.
    + by apply factorial_fuel_starved.
  - intros fuel. destruct (Nat.lt_ge_cases fuel (factorial_depth n)) as [Hlt|Hge].
    + by rewrite factorial_fuel_starved.
    + destruct (factorial_fuel_returns n fuel Hhi Hge) as (v & Hv & _). congruence.
Qed.

Lemma factorial_terminates_witness :
  in_int 6 ∧ factorial 6 = Val 720 ∧ factorial_fuel 5 6 = NoFuel.
Proof.
  assert (in_int 6) as H6 by int_range.
  split; [exact H6|]. split; [vm_compute; reflexivity|].
  apply (factorial_terminates 6 H6). vm_compute. lia.
Defined.

(** ** isPrime *)

Lemma isPrime_loop_unfold fuel num i :
  isPrime_loop (S fuel) num i =
    if int_mul i i <=? num then
      r1 ← int_rem num i;
      if r1 =? 0 then Val 0
      else
        r2 ← int_rem num (int_add i 2);
        if r2 =? 0 then Val 0
        else isPrime_loop fuel num (int_add i 6)
    else Val 1.
Proof. reflexivity. Qed.

(** More fuel does not change what the loop returns. *)
Lemma isPrime_loop_mono fuel fuel' num i v :
  (fuel <= fuel')%nat → isPrime_loop fuel num i = Val v → isPrime_loop fuel' num i = Val v.
Proof.
  revert fuel' i. induction fuel as [|fuel IH]; intros fuel' i Hle Hv; [done|].
  destruct fuel' as [|fuel']; [lia|].
  rewrite isPrime_loop_unfold in *. destruct (int_mul i i <=? num); [|done].
  destruct (int_rem num i) as [r1| |]; cbn [mbind outcome_bind] in *; try done.
  destruct (r1 =? 0); [done|].
  destruct (int_rem num (int_add i 2)) as [r2| |]; cbn [mbind outcome_bind] in *; try done.
  destruct (r2 =? 0); [done|]. apply IH; [lia|done].
Qed.

Lemma int_rem_pos a b : 0 < b → int_rem a b = Val (Z.rem a b).
Proof.
  intros Hb. unfold int_rem.
  destruct (Z.eqb_spec b 0); [lia|].
  destruct (Z.eqb_spec b (-1)); [lia|done].
Qed.

Lemma rem_zero_divide a b : 0 < b → Z.rem a b = 0 ↔ (b | a).
Proof. intros. apply Z.rem_divide. lia. Qed.

Lemma tested_0 num : tested num 0.
Proof. intros j Hj. lia. Qed.

Lemma tested_succ num k :
  tested num k → ¬ (6 * k + 5 | num) → ¬ (6 * k + 7 | num) → tested num (k + 1).
Proof.
  intros Ht H5 H7 j Hj. destruct (Z.eq_dec j k) as [->|Hne]; [done|].
  apply Ht. lia.
Qed.

(** A proper divisor refutes primality. *)
Lemma proper_divisor_not_prime num d :
  1 < d < num → (d | num) → ¬ is_prime num.
Proof. intros Hd Hdiv [_ Hp]. destruct (Hp d); [lia|done|lia|lia]. Qed.

Lemma square_overflows i : 0 <= i → int_max < i * i → 46341 <= i.
Proof. unfold int_max. intros. destruct (Z_le_gt_dec 46341 i); [done|nia]. Qed.

(** The first [i * i] that overflows is that of [i = 46343], reached when
    [num] is at least [46337 * 46337]; it wraps to a negative number. *)
Example isPrime_guard_overflow :
  46337 * 46337 = isPrime_overflow_from ∧ in_int (46337 * 46337) ∧
  int_max < 46343 * 46343 ∧ int_mul 46343 46343 = -2147293647.
Proof. repeat split; vm_compute; congruence. Qed.

(** The arguments that reach the loop: above 3 and with no factor 2 or 3. *)
Section Loop.
Variable num : Z.
Hypothesis Hnum : 3 < num.
Hypothesis Hmax : num <= int_max.
Hypothesis H2 : ¬ (2 | num).
Hypothesis H3 : ¬ (3 | num).

Lemma coprime6_cases : ∃ m, num = 6 * m + 1 ∨ num = 6 * m + 5.
Proof using H2 H3.
  pose proof (Z.div_mod num 6 ltac:(lia)) as Hdm.
  pose proof (Z.mod_pos_bound num 6 ltac:(lia)) as Hr.
  set (t := num / 6) in *. set (r := num mod 6) in *. exists t.
  assert (r = 0 ∨ r = 1 ∨ r = 2 ∨ r = 3 ∨ r = 4 ∨ r = 5) as Hcases by lia.
  destruct Hcases as [Hr0|[Hr1|[Hr2|[Hr3|[Hr4|Hr5]]]]]; [|lia| | | |lia]; exfalso.
  - apply H2. exists (3 * t). lia.
  - apply H2. exists (3 * t + 1). lia.
  - apply H3. exists (2 * t + 1). lia.
  - apply H2. exists (3 * t + 2). lia.
Qed.

(** Trial division by 2, 3 and the numbers 6k±1 up to the square root
    decides primality. *)
Lemma trial_division_prime k :
  0 <= k → tested num k → num < (6 * k + 5) * (6 * k + 5) → is_prime num.
Proof using Hnum H2 H3.
  intros Hk Ht Hsq. split; [lia|].
  intros d Hd [q Hq].
  destruct (Z.eq_dec d 1) as [|Hd1]; [by left|].
  destruct (Z.eq_dec d num) as [|Hdn]; [by right|]. exfalso.
  assert (1 < q) as Hq1.
  { destruct (Z_le_gt_dec q 0) as [Hq0|Hq0].
    - pose proof (Z.mul_nonpos_nonneg q d Hq0 ltac:(lia)). lia.
    - destruct (Z.eq_dec q 1) as [->|]; lia. }
  (* a divisor [e] that is not above the square root *)
  assert (∃ e, 1 < e ∧ e * e <= num ∧ (e | num)) as (e & He1 & Hee & Hen).
  { destruct (Z_le_gt_dec d q).
    - exists d. split; [lia|]. split; [nia|]. by exists q.
    - exists q. split; [lia|]. split; [nia|]. exists d. lia. }
  assert (e < 6 * k + 5) as Hlt by nia.
  pose proof (Z.div_mod e 6 ltac:(lia)) as Hdm.
  pose proof (Z.mod_pos_bound e 6 ltac:(lia)) as Hr.
  set (t := e / 6) in *. set (r := e mod 6) in *.
  assert (r = 0 ∨ r = 1 ∨ r = 2 ∨ r = 3 ∨ r = 4 ∨ r = 5) as Hcases by lia.
  destruct Hcases as [Hr0|[Hr1|[Hr2|[Hr3|[Hr4|Hr5]]]]].
  - apply H2. apply Z.divide_trans with e; [|done]. exists (3 * t). lia.
  - destruct (Ht (t - 1)) as [_ Hno]; [lia|]. apply Hno.
    by replace (6 * (t - 1) + 7) with e by lia.
  - apply H2. apply Z.divide_trans with e; [|done]. exists (3 * t + 1). lia.
  - apply H3. apply Z.divide_trans with e; [|done]. exists (2 * t + 1). lia.
  - apply H2. apply Z.divide_trans with e; [|done]. exists (3 * t + 2). lia.
  - destruct (Ht t) as [Hno _]; [lia|]. apply Hno.
    by replace (6 * t + 5) with e by lia.
Qed.

(** The loop, entered at [i = 6 k + 5] with all smaller candidates tested,
    returns 0 or 1; the answer 1 is always right, the answer 0 is right
    unless [num] reaches [isPrime_overflow_from]. *)
Lemma isPrime_loop_spec fuel k :
  0 <= k → 6 * k + 5 <= num → tested num k →
  (k = 0 ∨ (6 * k - 1) * (6 * k - 1) <= num ∨ isPrime_overflow_from <= num) →
  (Z.to_nat (num - (6 * k + 5)) < fuel)%nat →
  (isPrime_loop fuel num (6 * k + 5) = Val 1 ∧ is_prime num) ∨
  (isPrime_loop fuel num (6 * k + 5) = Val 0 ∧
   (is_prime num → isPrime_overflow_from <= num)).
Proof using Hnum Hmax H2 H3.
  revert k. destruct coprime6_cases as [m Hm].
  induction fuel as [|fuel IH]; intros k Hk Hle Ht Hhist Hfuel; [lia|].
  rewrite isPrime_loop_unfold. remember (6 * k + 5) as i eqn:Hi.
  assert (int_mul 5 5 = 25) as H25 by reflexivity.
  destruct (Z.leb_spec (int_mul i i) num) as [Hcond|Hcond].
  - (* the body runs *)
    rewrite (int_rem_pos num i) by lia. cbn [mbind outcome_bind].
    destruct (Z.eqb_spec (Z.rem num i) 0) as [Hr1|Hr1].
    { right. split; [done|]. intros [_ Hp].
      apply rem_zero_divide in Hr1; [|lia].
      destruct (Hp i ltac:(lia) Hr1) as [|Hin]; [lia|].
      destruct (Z.eq_dec k 0) as [->|Hk0].
      { change (6 * 0 + 5) with 5 in Hi. subst i. lia. }
      destruct Hhist as [|[Hsq|]]; [done|nia|done]. }
    rewrite rem_zero_divide in Hr1 by lia.
    assert (i ≠ num) as Hne by (intros ->; apply Hr1, Z.divide_refl).
    assert (i + 2 <= num) as Hle2 by lia.
    assert (int_add i 2 = i + 2) as ->.
    { apply wrap_id. int_range. }
    rewrite (int_rem_pos num (i + 2)) by lia. cbn [mbind outcome_bind].
    destruct (Z.eqb_spec (Z.rem num (i + 2)) 0) as [Hr2|Hr2].
    { right. split; [done|]. intros [_ Hp].
      apply rem_zero_divide in Hr2; [|lia].
      destruct (Hp (i + 2) ltac:(lia) Hr2) as [|Hin]; [lia|].
      destruct (Z.eq_dec k 0) as [->|Hk0].
      { change (6 * 0 + 5) with 5 in Hi. subst i. lia. }
      destruct Hhist as [|[Hsq|]]; [done|nia|done]. }
    rewrite rem_zero_divide in Hr2 by lia.
    assert (i + 2 ≠ num) as Hne2 by (intros <-; apply Hr2, Z.divide_refl).
    assert (i + 6 <= num) as Hle6 by lia.
    assert (int_add i 6 = 6 * (k + 1) + 5) as ->.
    { unfold int_add. rewrite wrap_id; [lia|int_range]. }
    apply IH; [lia|lia| | |lia].
    + apply tested_succ; [done|by rewrite <- Hi|].
      by replace (6 * k + 7) with (i + 2) by lia.
    + replace (6 * (k + 1) - 1) with i by lia.
      destruct (Z_le_gt_dec (i * i) int_max) as [Hfit|Hover].
      * (* [i * i] was computed exactly *)
        right; left. unfold int_mul in Hcond. rewrite wrap_id in Hcond; [done|].
        unfold in_int, int_min, int_max in *. nia.
      * (* [i * i] overflowed *)
        right; right.
        pose proof (square_overflows i ltac:(lia) ltac:(lia)) as Hbig.
        destruct Hhist as [->|[Hsq|]]; [lia| |done].
        unfold isPrime_overflow_from.
        assert (46337 <= 6 * k - 1) as Hlow by lia.
        pose proof (Z.mul_le_mono_nonneg 46337 (6 * k - 1) 46337 (6 * k - 1)).
        lia.
  - (* the loop is left *)
    left. split; [done|]. apply (trial_division_prime k); try done.
    rewrite <- Hi. destruct (Z_le_gt_dec (i * i) int_max) as [Hfit|Hover]; [|lia].
    unfold int_mul in Hcond. rewrite wrap_id in Hcond; [done|].
    unfold in_int, int_min, int_max in *. nia.
Qed.
End Loop.

Lemma is_prime_2 : is_prime 2.
Proof.
  split; [lia|]. intros d Hd Hdiv.
  apply Z.divide_pos_le in Hdiv; lia.
Qed.

Lemma is_prime_3 : is_prime 3.
Proof.
  split; [lia|]. intros d Hd Hdiv.
  pose proof (Z.divide_pos_le d 3 ltac:(lia) Hdiv).
  assert (d = 1 ∨ d = 2 ∨ d = 3) as [->|[->| ->]] by lia; [by left| |by right].
  destruct Hdiv as [q Hq]. lia.
Qed.

Lemma isPrime_fuel_spec fuel num :
  in_int num → (Z.to_nat num <= fuel)%nat →
  (isPrime_fuel fuel num = Val 1 ∧ is_prime num) ∨
  (isPrime_fuel fuel num = Val 0 ∧ (is_prime num → isPrime_overflow_from <= num)).
Proof.
  intros [Hlo Hhi] Hfuel. unfold isPrime_fuel.
  destruct (Z.leb_spec num 1) as [Hle1|Hgt1].
  { right. split; [done|]. intros [? _]. lia. }
  destruct (Z.leb_spec num 3) as [Hle3|Hgt3].
  { left. split; [done|].
    assert (num = 2 ∨ num = 3) as [->| ->] by lia; [apply is_prime_2|apply is_prime_3]. }
  rewrite (int_rem_pos num 2), (int_rem_pos num 3) by lia.
  cbn [mbind outcome_bind].
  destruct (Z.eqb_spec (Z.rem num 2) 0) as [Hr2|Hr2].
  { right. split; [done|]. intros Hp. exfalso.
    apply rem_zero_divide in Hr2; [|lia].
    apply (proper_divisor_not_prime num 2); [lia|done|done]. }
  destruct (Z.eqb_spec (Z.rem num 3) 0) as [Hr3|Hr3].
  { right. split; [done|]. intros Hp. exfalso.
    apply rem_zero_divide in Hr3; [|lia].
    apply (proper_divisor_not_prime num 3); [lia|done|done]. }
  rewrite rem_zero_divide in Hr2, Hr3 by lia.
  destruct (coprime6_cases num Hr2 Hr3) as [m Hm].
  apply (isPrime_loop_spec num Hgt3 Hhi Hr2 Hr3 fuel 0);
    [done|lia|apply tested_0|by left|lia].
Qed.

Lemma isPrime_spec num :
  in_int num →
  (isPrime num = Val 1 ∧ is_prime num) ∨
  (isPrime num = Val 0 ∧ (is_prime num → isPrime_overflow_from <= num)).
Proof. intros Hin. by apply isPrime_fuel_spec. Qed.

(** [isPrime] returns on every [int], with 0 or 1. *)
Lemma isPrime_total num : in_int num → isPrime num = Val 0 ∨ isPrime num = Val 1.
Proof.
  intros Hin. destruct (isPrime_spec num Hin) as [[-> _]|[-> _]]; auto.
Qed.

(** The answer "prime" is right on every [int]. *)
Lemma isPrime_sound num : in_int num → isPrime num = Val 1 → is_prime num.
Proof.
  intros Hin. destruct (isPrime_spec num Hin) as [[_ Hp]|[-> _]]; [done|].
  intros; simplify_eq.
Qed.

(** Composite numbers, 0, 1 and the negative numbers are rejected on every
    [int]. *)
Lemma isPrime_rejects num : in_int num → ¬ is_prime num → isPrime num = Val 0.
Proof.
  intros Hin Hnp. destruct (isPrime_total num Hin) as [|H1]; [done|].
  by apply isPrime_sound in H1.
Qed.

(** Below [isPrime_overflow_from] no [i * i] overflows and [isPrime] decides
    primality. *)
Lemma isPrime_correct_below num :
  in_int num → num < isPrime_overflow_from →
  (isPrime num = Val 1 ↔ is_prime num) ∧ (isPrime num = Val 0 ↔ ¬ is_prime num).
Proof.
  intros Hin Hsmall.
  destruct (isPrime_spec num Hin) as [[-> Hp]|[-> Hp]].
  - split; split; try done; intros; simplify_eq.
  - assert (¬ is_prime num) by (intros Hp'; specialize (Hp Hp'); lia).
    split; split; try done; intros; simplify_eq.
Qed.

Lemma isPrime_examples :
  isPrime 17 = Val 1 ∧ isPrime 18 = Val 0 ∧ isPrime 0 = Val 0 ∧ isPrime 1 = Val 0 ∧
  ∀ num, num < 0 → isPrime num = Val 0.
Proof.
  repeat (split; [vm_compute; reflexivity|]).
  intros num Hneg. unfold isPrime, isPrime_fuel.
  by rewrite (proj2 (Z.leb_le num 1)) by lia.
Qed.

(** *** The largest [int] *)

(** At [num = INT_MAX] the guard [i * i <= num] holds whatever [i * i] wrapped
    to, so the loop can only be left through [return 0]. *)
Lemma isPrime_loop_int_max fuel i : isPrime_loop fuel int_max i ≠ Val 1.
Proof.
  revert i. induction fuel as [|fuel IH]; intros i; [done|].
  rewrite isPrime_loop_unfold.
  unfold int_mul at 1. rewrite (proj2 (Z.leb_le _ _) (wrap_le_int_max (i * i))).
  destruct (int_rem int_max i) as [r1| |]; cbn [mbind outcome_bind]; try done.
  destruct (r1 =? 0); [done|].
  destruct (int_rem int_max (int_add i 2)) as [r2| |]; cbn [mbind outcome_bind]; try done.
  destruct (r2 =? 0); [done|]. apply IH.
Qed.

Lemma testedb_sound num k : testedb num k = true → tested num (Z.of_nat k).
Proof.
  induction k as [|k IH]; intros Hb.
  - apply tested_0.
  - cbn [testedb] in Hb. apply andb_true_iff in Hb as [Hb H7].
    apply andb_true_iff in Hb as [Hb H5].
    replace (Z.of_nat (S k)) with (Z.of_nat k + 1) by lia.
    apply negb_true_iff in H5, H7. apply Z.eqb_neq in H5, H7.
    apply tested_succ; [by apply IH| |].
    + by rewrite <- rem_zero_divide by lia.
    + by rewrite <- rem_zero_divide by lia.
Qed.

Lemma is_prime_int_max : is_prime int_max.
Proof.
  assert (testedb int_max (Z.to_nat 7723) = true) as Hb by (vm_compute; reflexivity).
  apply testedb_sound in Hb. rewrite Z2Nat.id in Hb by lia.
  apply (trial_division_prime int_max) with (k := 7723); try done.
  - intros [q Hq]. unfold int_max in Hq. lia.
  - intros [q Hq]. unfold int_max in Hq. lia.
Qed.

(** C1 (fails at [INT_MAX]): 2147483647 is prime, yet [isPrime] returns 0
    for it: from [i = 46343] on, [i * i] no longer fits an [int], the guard
    of the loop stays true, and the loop runs until [i + 2] is [num] itself. *)
Theorem isPrime_int_max : isPrime 2147483647 = Val 0 ∧ is_prime 2147483647.
Proof.
  split; [|apply is_prime_int_max].
  assert (in_int 2147483647) as Hin by int_range.
  destruct (isPrime_total 2147483647 Hin) as [|H1]; [done|].
  exfalso. revert H1. unfold isPrime.
  generalize (Z.to_nat 2147483647). intros fuel.
  change (isPrime_fuel fuel 2147483647) with (isPrime_loop fuel int_max 5).
  apply isPrime_loop_int_max.
Qed.

(** ** reverseString *)

Lemma reverseString_loop_unfold fuel str len i :
  reverseString_loop (S fuel) str len i =
    half ← int_div len 2;
    if i <? half then
      temp ← load str i;
      c ← load str (int_sub (int_sub len 1) i);
      str1 ← store str i c;
      str2 ← store str1 (int_sub (int_sub len 1) i) temp;
      reverseString_loop fuel str2 len (int_add i 1)
    else Val str.
Proof. reflexivity. Qed.

Lemma int_div_2 len : int_div len 2 = Val (len ÷ 2).
Proof. reflexivity. Qed.

Lemma load_lookup (str : list ascii) (i : nat) c :
  str !! i = Some c → load str (Z.of_nat i) = Val c.
Proof.
  intros Hc. pose proof (lookup_lt_Some _ _ _ Hc) as Hlt. unfold load.
  rewrite (proj2 (Z.leb_le _ _)), (proj2 (Z.ltb_lt _ _)) by lia.
  cbn [andb]. by rewrite Nat2Z.id, Hc.
Qed.

Lemma store_insert (str : list ascii) (i : nat) c :
  (i < length str)%nat → store str (Z.of_nat i) c = Val (<[i := c]> str).
Proof.
  intros Hlt. unfold store.
  rewrite (proj2 (Z.leb_le _ _)), (proj2 (Z.ltb_lt _ _)) by lia.
  cbn [andb]. by rewrite Nat2Z.id.
Qed.

(** One round of the loop swaps the two ends of the part not yet reversed. *)
Lemma swap_ends (P M T : list ascii) a b (i j : nat) :
  i = length P → j = (length P + S (length M))%nat →
  <[j := a]> (<[i := b]> (P ++ a :: M ++ b :: T)) = P ++ b :: M ++ a :: T.
Proof.
  intros -> ->.
  rewrite (insert_app_r_alt P _ (length P)) by lia.
  rewrite Nat.sub_diag. cbn [insert list_insert].
  rewrite (insert_app_r_alt P) by lia.
  replace (length P + S (length M) - length P)%nat with (S (length M)) by lia.
  cbn [insert list_insert]. f_equal. f_equal.
  rewrite (insert_app_r_alt M) by lia. by rewrite Nat.sub_diag.
Qed.

(** A buffer of which the part between [i] and [len - i] has two ends. *)
Lemma split_ends (cur : list ascii) (len i : nat) :
  (2 * i + 2 <= len)%nat → (len <= length cur)%nat →
  ∃ P a M b T, cur = P ++ a :: M ++ b :: T ∧ length P = i ∧
               length M = (len - 2 * i - 2)%nat.
Proof.
  intros Hi Hlen.
  rewrite <- (take_drop i cur).
  destruct (drop i cur) as [|a rest] eqn:Hrest.
  { apply (f_equal length) in Hrest. rewrite length_drop in Hrest. simpl in Hrest. lia. }
  rewrite <- (take_drop (len - 2 * i - 2) rest).
  destruct (drop (len - 2 * i - 2) rest) as [|b T] eqn:HS.
  { apply (f_equal length) in Hrest, HS. rewrite length_drop in Hrest, HS.
    simpl in Hrest, HS. lia. }
  exists (take i cur), a, (take (len - 2 * i - 2) rest), b, T.
  split; [done|]. rewrite !length_take.
  apply (f_equal length) in Hrest. rewrite length_drop in Hrest. simpl in Hrest. lia.
Qed.

Lemma reverse_middle_ends (P M T : list ascii) a b (len i : nat) :
  length P = i → length M = (len - 2 * i - 2)%nat → (2 * i + 2 <= len)%nat →
  reverse_middle len i (P ++ a :: M ++ b :: T) = P ++ b :: reverse M ++ a :: T ∧
  reverse_middle len (i + 1) (P ++ b :: M ++ a :: T) = P ++ b :: reverse M ++ a :: T.
Proof.
  intros HP HM Hi. unfold reverse_middle. split.
  - rewrite take_app_length', drop_app_length' by done.
    replace (len - 2 * i)%nat with (length (a :: M ++ [b])).
    2:{ rewrite length_cons, length_app. simpl. lia. }
    replace (a :: M ++ b :: T) with ((a :: M ++ [b]) ++ T).
    2:{ simpl. by rewrite <- app_assoc. }
    rewrite take_app_length.
    replace (len - i)%nat with (length (P ++ a :: M ++ [b])).
    2:{ rewrite length_app, length_cons, length_app. simpl. lia. }
    replace (P ++ (a :: M ++ [b]) ++ T) with ((P ++ a :: M ++ [b]) ++ T).
    2:{ by rewrite <- app_assoc. }
    rewrite drop_app_length.
    rewrite reverse_cons, reverse_snoc. simpl. by rewrite <- app_assoc.
  - replace (P ++ b :: M ++ a :: T) with ((P ++ [b]) ++ M ++ a :: T).
    2:{ by rewrite <- app_assoc. }
    rewrite take_app_length', drop_app_length' by (rewrite length_app; simpl; lia).
    replace (len - 2 * (i + 1))%nat with (length M) by lia.
    rewrite take_app_length.
    replace (len - (i + 1))%nat with (length ((P ++ [b]) ++ M)).
    2:{ rewrite !length_app. simpl. lia. }
    rewrite (app_assoc (P ++ [b]) M), drop_app_length.
    by rewrite <- !app_assoc.
Qed.

Lemma reverse_short (l : list ascii) : (length l <= 1)%nat → reverse l = l.
Proof. destruct l as [|x [|y l]]; simpl; intros; [done|done|lia]. Qed.

Lemma reverse_middle_done (cur : list ascii) (len i : nat) :
  (2 * i <= len)%nat → (len < 2 * i + 2)%nat → (len <= length cur)%nat →
  reverse_middle len i cur = cur.
Proof.
  intros Hlo Hhi Hlen. unfold reverse_middle.
  rewrite reverse_short by (rewrite length_take; lia).
  rewrite app_assoc, take_take_drop.
  replace (len - i)%nat with (i + (len - 2 * i))%nat by lia.
  apply take_drop.
Qed.

Lemma quot_2_lt (i len : Z) : 0 <= len → (i < len ÷ 2 ↔ 2 * i + 2 <= len).
Proof.
  intros Hlen. pose proof (Z.quot_rem' len 2) as Hqr.
  pose proof (Z.rem_bound_pos len 2 Hlen ltac:(lia)). lia.
Qed.

Lemma reverseString_loop_mono fuel fuel' (str : list ascii) len i v :
  (fuel <= fuel')%nat → reverseString_loop fuel str len i = Val v →
  reverseString_loop fuel' str len i = Val v.
Proof.
  revert fuel' str i. induction fuel as [|fuel IH]; intros fuel' str i Hle Hv; [done|].
  destruct fuel' as [|fuel']; [lia|].
  rewrite reverseString_loop_unfold in *.
  destruct (int_div len 2) as [half| |]; cbn [mbind outcome_bind] in *; try done.
  destruct (i <? half); [|done].
  destruct (load str i) as [temp| |]; cbn [mbind outcome_bind] in *; try done.
  destruct (load str (int_sub (int_sub len 1) i)) as [c| |];
    cbn [mbind outcome_bind] in *; try done.
  destruct (store str i c) as [str1| |]; cbn [mbind outcome_bind] in *; try done.
  destruct (store str1 (int_sub (int_sub len 1) i) temp) as [str2| |];
    cbn [mbind outcome_bind] in *; try done.
  apply IH; [lia|done].
Qed.

(** One round: the two ends are exchanged and [i] moves on. *)
Lemma reverseString_loop_step fuel (cur : list ascii) (len i : nat) :
  Z.of_nat len <= int_max → (2 * i + 2 <= len)%nat → (len <= length cur)%nat →
  ∃ cur', length cur' = length cur ∧
          reverse_middle len (i + 1) cur' = reverse_middle len i cur ∧
          reverseString_loop (S fuel) cur (Z.of_nat len) (Z.of_nat i)
          = reverseString_loop fuel cur' (Z.of_nat len) (Z.of_nat (i + 1)).
Proof.
  intros Hmax Hi Hlen.
  destruct (split_ends cur len i) as (P & a & M & b & T & -> & HP & HM); [done|done|].
  exists (P ++ b :: M ++ a :: T). split; [|split].
  - by rewrite !length_app, !length_cons, !length_app, !length_cons.
  - by destruct (reverse_middle_ends P M T a b len i HP HM Hi) as [-> ->].
  - rewrite reverseString_loop_unfold, int_div_2. cbn [mbind outcome_bind].
    rewrite (proj2 (Z.ltb_lt _ _)) by (apply quot_2_lt; lia).
    assert (int_sub (int_sub (Z.of_nat len) 1) (Z.of_nat i)
            = Z.of_nat (length P + S (length M))) as ->.
    { unfold int_sub, int_max in *.
      rewrite (wrap_id (Z.of_nat len - 1)) by int_range.
      rewrite wrap_id by int_range. lia. }
    assert (int_add (Z.of_nat i) 1 = Z.of_nat (i + 1)) as ->.
    { unfold int_add, int_max in *.
      rewrite wrap_id by int_range. lia. }
    rewrite (load_lookup _ i a) by (by apply list_lookup_middle).
    cbn [mbind outcome_bind].
    rewrite (load_lookup _ (length P + S (length M)) b).
    2:{ rewrite lookup_app_r by lia.
        replace (length P + S (length M) - length P)%nat with (S (length M)) by lia.
        change ((M ++ b :: T) !! length M = Some b). by apply list_lookup_middle. }
    cbn [mbind outcome_bind].
    rewrite store_insert by (rewrite length_app; simpl; lia).
    cbn [mbind outcome_bind].
    rewrite store_insert.
    2:{ rewrite length_insert, length_app, length_cons, length_app, length_cons. lia. }
    cbn [mbind outcome_bind].
    by rewrite swap_ends.
Qed.

Lemma reverseString_loop_spec fuel (cur : list ascii) (len i : nat) :
  Z.of_nat len <= int_max → (2 * i <= len)%nat → (len <= length cur)%nat →
  (len - 2 * i < 2 * fuel)%nat →
  reverseString_loop fuel cur (Z.of_nat len) (Z.of_nat i) = Val (reverse_middle len i cur).
Proof.
  intros Hmax. revert cur i.
  induction fuel as [|fuel IH]; intros cur i Hi Hlen Hfuel; [lia|].
  destruct (Nat.lt_ge_cases len (2 * i + 2)) as [Hend|Hmore].
  - rewrite reverseString_loop_unfold, int_div_2. cbn [mbind outcome_bind].
    destruct (Z.ltb_spec (Z.of_nat i) (Z.of_nat len ÷ 2)) as [Hlt|_].
    { apply quot_2_lt in Hlt; lia. }
    by rewrite reverse_middle_done.
  - destruct (reverseString_loop_step fuel cur len i Hmax Hmore Hlen)
      as (cur' & Hsize & <- & ->).
    apply IH; lia.
Qed.

(** The loop makes [len / 2] rounds: with no more fuel than that it has not
    finished. *)
Lemma reverseString_loop_starved fuel (cur : list ascii) (len i : nat) :
  Z.of_nat len <= int_max → (len <= length cur)%nat →
  (2 * fuel + 2 * i <= len)%nat →
  reverseString_loop fuel cur (Z.of_nat len) (Z.of_nat i) = NoFuel.
Proof.
  intros Hmax. revert cur i.
  induction fuel as [|fuel IH]; intros cur i Hlen Hfuel; [done|].
  destruct (reverseString_loop_step fuel cur len i Hmax) as (cur' & Hsize & _ & ->);
    [lia|done|].
  apply IH; lia.
Qed.

Lemma reverse_middle_0 len (str : list ascii) :
  reverse_middle len 0 str = reverse_prefix len str.
Proof.
  unfold reverse_middle, reverse_prefix.
  by rewrite take_0, drop_0, Nat.mul_0_r, !Nat.sub_0_r.
Qed.

Lemma reverse_prefix_short m (str : list ascii) : (m <= 1)%nat → reverse_prefix m str = str.
Proof.
  intros Hm. unfold reverse_prefix.
  rewrite reverse_short by (rewrite length_take; lia). apply take_drop.
Qed.

(** With a length of at most 1, negative ones included, no round is made. *)
Lemma reverseString_loop_skip fuel (str : list ascii) len :
  len <= 1 → reverseString_loop (S fuel) str len 0 = Val str.
Proof.
  intros Hlen. rewrite reverseString_loop_unfold, int_div_2. cbn [mbind outcome_bind].
  destruct (Z.ltb_spec 0 (len ÷ 2)) as [Hlt|]; [|done].
  destruct (Z_le_gt_dec 0 len) as [Hpos|Hneg].
  - apply quot_2_lt in Hlt; lia.
  - pose proof (Z.quot_opp_l len 2 ltac:(lia)) as Hopp.
    pose proof (Z.quot_pos (- len) 2 ltac:(lia) ltac:(lia)). lia.
Qed.

(** *** What [strlen] returns *)

Lemma strlen_split (str : list ascii) n :
  strlen str = Val n →
  ∃ body rest, str = body ++ nul :: rest ∧ length body = n ∧
               Forall (λ c, c ≠ nul) body.
Proof.
  revert n. induction str as [|c str IH]; intros n Hn; [done|].
  cbn [strlen] in Hn. destruct (Ascii.eqb_spec c nul) as [->|Hc].
  - injection Hn as <-. by exists [], str.
  - destruct (strlen str) as [k| |] eqn:Hk; try done.
    cbn [mbind outcome_bind] in Hn. injection Hn as <-.
    destruct (IH k eq_refl) as (body & rest & -> & <- & Hall).
    exists (c :: body), rest. split; [done|]. split; [done|]. by constructor.
Qed.

Lemma strlen_app (body rest : list ascii) :
  Forall (λ c, c ≠ nul) body → strlen (body ++ nul :: rest) = Val (length body).
Proof.
  induction 1 as [|c body Hc Hall IH]; [done|].
  cbn [app strlen]. destruct (Ascii.eqb_spec c nul) as [|_]; [done|].
  by rewrite IH.
Qed.

Lemma wrap_nonneg_le z : 0 <= z → wrap z <= z.
Proof.
  intros Hz. unfold wrap.
  pose proof (Z.mod_le (z + 2147483648) 4294967296 ltac:(lia) ltac:(lia)). lia.
Qed.

(** [reverseString] reverses the first [len] characters, [len] being the
    length as the [int] holds it (nothing when that is negative). *)
Lemma reverseString_spec (str : list ascii) n :
  strlen str = Val n →
  reverseString str = Val (reverse_prefix (Z.to_nat (int_of_size n)) str) ∧
  (Z.to_nat (int_of_size n) <= n)%nat ∧ (n < length str)%nat.
Proof.
  intros Hn. unfold reverseString. rewrite Hn. cbn [mbind outcome_bind].
  destruct (strlen_split str n Hn) as (body & rest & Hstr & Hlen & _).
  assert (n < length str)%nat as Hlt.
  { rewrite Hstr, length_app, length_cons. lia. }
  pose proof (wrap_nonneg_le (Z.of_nat n) ltac:(lia)) as Hle.
  pose proof (wrap_in_int (Z.of_nat n)) as [_ Hmax].
  fold (int_of_size n) in Hle, Hmax.
  split; [|lia].
  destruct (Z_le_gt_dec (int_of_size n) 1) as [Hsmall|Hbig].
  - rewrite reverseString_loop_skip by done.
    by rewrite reverse_prefix_short by lia.
  - set (m := Z.to_nat (int_of_size n)).
    replace (int_of_size n) with (Z.of_nat m) by lia.
    rewrite (reverseString_loop_spec _ str m 0); [|lia|lia|lia|lia].
    by rewrite reverse_middle_0.
Qed.

(** *** Reversal of a prefix *)

Lemma reverse_prefix_app m (body tail : list ascii) :
  (m <= length body)%nat → reverse_prefix m (body ++ tail) = reverse_prefix m body ++ tail.
Proof.
  intros Hm. unfold reverse_prefix.
  by rewrite take_app_le, drop_app_le, app_assoc by done.
Qed.

Lemma length_reverse_prefix m (l : list ascii) : length (reverse_prefix m l) = length l.
Proof.
  unfold reverse_prefix.
  rewrite length_app, length_reverse, <- length_app. by rewrite take_drop.
Qed.

Lemma reverse_prefix_Permutation m (l : list ascii) : reverse_prefix m l ≡ₚ l.
Proof. unfold reverse_prefix. by rewrite reverse_Permutation, take_drop. Qed.

Lemma Forall_reverse_prefix (P : ascii → Prop) m l :
  Forall P l → Forall P (reverse_prefix m l).
Proof.
  intros Hall. unfold reverse_prefix. apply Forall_app. split.
  - by apply Forall_reverse, Forall_take.
  - by apply Forall_drop.
Qed.

Lemma reverse_prefix_involutive m (l : list ascii) :
  (m <= length l)%nat → reverse_prefix m (reverse_prefix m l) = l.
Proof.
  intros Hm. unfold reverse_prefix.
  rewrite take_app_length', drop_app_length' by (by rewrite length_reverse, length_take_le).
  by rewrite reverse_involutive, take_drop.
Qed.

Lemma reverse_prefix_lookup_lt m (l : list ascii) i :
  (m <= length l)%nat → (i < m)%nat → reverse_prefix m l !! i = l !! (m - 1 - i)%nat.
Proof.
  intros Hm Hi. unfold reverse_prefix.
  rewrite lookup_app_l by (rewrite length_reverse, length_take_le; lia).
  rewrite reverse_lookup by (rewrite length_take_le; lia).
  rewrite length_take_le by done. rewrite lookup_take_lt by lia. f_equal. lia.
Qed.

Lemma reverse_prefix_lookup_ge m (l : list ascii) i :
  (m <= length l)%nat → (m <= i)%nat → reverse_prefix m l !! i = l !! i.
Proof.
  intros Hm Hi. unfold reverse_prefix.
  rewrite lookup_app_r by (rewrite length_reverse, length_take_le; lia).
  rewrite length_reverse, length_take_le by done.
  rewrite lookup_drop. f_equal. lia.
Qed.

(** The terminator is still the first one after a prefix no longer than the
    string was reversed. *)
Lemma strlen_reverse_prefix m (str : list ascii) len :
  strlen str = Val len → (m <= len)%nat → strlen (reverse_prefix m str) = Val len.
Proof.
  intros Hlen Hm.
  destruct (strlen_split str len Hlen) as (body & rest & -> & <- & Hall).
  rewrite reverse_prefix_app by done.
  rewrite <- (length_reverse_prefix m body).
  by apply strlen_app, Forall_reverse_prefix.
Qed.

Lemma int_of_size_fits (len : nat) :
  Z.of_nat len <= int_max → Z.to_nat (int_of_size len) = len.
Proof.
  intros Hfit. unfold int_of_size. rewrite wrap_id; [lia|int_range].
Qed.

Lemma reverseString_loop_rounds fuel (str : list ascii) (len : nat) :
  Z.of_nat len <= int_max → (len <= length str)%nat →
  reverseString_loop fuel str (Z.of_nat len) 0 = NoFuel ↔ (fuel <= len / 2)%nat.
Proof.
  intros Hmax Hlen.
  pose proof (Nat.div_mod_eq len 2) as Hdm.
  pose proof (Nat.mod_upper_bound len 2 ltac:(lia)) as Hr.
  split.
  - intros Hstarved.
    destruct (Nat.le_gt_cases fuel (len / 2)) as [|Hgt]; [done|].
    change 0 with (Z.of_nat 0) in Hstarved.
    rewrite (reverseString_loop_spec fuel str len 0 Hmax) in Hstarved; [done|lia|done|lia].
  - intros Hle. apply (reverseString_loop_starved fuel str len 0 Hmax); [done|lia].
Qed.

(** C2 (as amended): on a terminated buffer whose length [len] fits an
    [int], [reverseString] returns and leaves at every index [i < len] the
    character that was at [len - 1 - i]; the terminator and what follows it
    stay; the loop makes [len / 2] rounds; with [len] 0 or 1 the buffer is
    unchanged; "Hello World" becomes "dlroW olleH". *)
Theorem reverseString_reverses (str : list ascii) (len : nat)
    (Hlen : strlen str = Val len) (Hfit : Z.of_nat len <= int_max) :
  reversed_in_place str ∧
  (∀ str', reverseString str = Val str' →
     length str' = length str ∧
     (∀ i : nat, (len <= i)%nat → str' !! i = str !! i) ∧
     ((len <= 1)%nat → str' = str)) ∧
  (∀ fuel, reverseString_loop fuel str (Z.of_nat len) 0 = NoFuel
           ↔ (fuel <= len / 2)%nat) ∧
  reverseString (c_string "Hello World") = Val (c_string "dlroW olleH").
Proof.
  destruct (reverseString_spec str len Hlen) as (Hrev & _ & Hlt).
  rewrite int_of_size_fits in Hrev by done.
  split; [|split; [|split]].
  - exists len, (reverse_prefix len str). split; [done|]. split; [done|].
    intros i Hi. apply reverse_prefix_lookup_lt; lia.
  - intros str' Hstr'. rewrite Hrev in Hstr'. injection Hstr' as <-.
    split; [apply length_reverse_prefix|]. split.
    + intros i Hi. apply reverse_prefix_lookup_ge; lia.
    + apply reverse_prefix_short.
  - intros fuel. apply reverseString_loop_rounds; [done|lia].
  - vm_compute. reflexivity.
Qed.

Lemma reverseString_reverses_witness :
  strlen (c_string "abc") = Val 3%nat ∧ Z.of_nat 3 <= int_max ∧
  reversed_in_place (c_string "abc").
Proof.
  assert (strlen (c_string "abc") = Val 3%nat) as Hlen by (vm_compute; reflexivity).
  assert (Z.of_nat 3 <= int_max) as Hfit by (vm_compute; discriminate).
  split; [exact Hlen|]. split; [exact Hfit|].
  apply (reverseString_reverses (c_string "abc") 3 Hlen Hfit).
Defined.

(** *** Strings longer than [INT_MAX] *)

Lemma long_string_unchanged (N : nat) :
  Z.of_nat N = 2147483647 →
  let s := "a"%char :: replicate N "b"%char ++ [nul] in
  strlen s = Val (S N) ∧ reverseString s = Val s ∧
  s !! 0%nat = Some "a"%char ∧ s !! (S N - 1 - 0)%nat = Some "b"%char.
Proof.
  intros HN s.
  assert (strlen s = Val (S N)) as Hlen.
  { replace (S N) with (length ("a"%char :: replicate N "b"%char))
      by (by rewrite length_cons, length_replicate).
    apply (strlen_app ("a"%char :: replicate N "b"%char) []).
    constructor; [done|]. by apply Forall_replicate. }
  split; [done|]. split; [|split; [done|]].
  - destruct (reverseString_spec s (S N) Hlen) as (-> & _).
    assert (int_of_size (S N) = int_min) as ->.
    { unfold int_of_size. by replace (Z.of_nat (S N)) with 2147483648 by lia. }
    by rewrite reverse_prefix_short by (unfold int_min; lia).
  - replace (S N - 1 - 0)%nat with (S (N - 1)) by lia. subst s.
    change ((replicate N "b"%char ++ [nul]) !! (N - 1)%nat = Some "b"%char).
    rewrite lookup_app_l by (rewrite length_replicate; lia).
    apply lookup_replicate_2. lia.
Qed.

(** C2 (as stated) fails on a string of [2^31] characters: its length does
    not fit the [int] that holds it, no swap is made, and the first
    character is not the one that was last. *)
Lemma reverseString_long_string : ¬ reversed_in_place long_string.
Proof.
  destruct (long_string_unchanged (Z.to_nat 2147483647) ltac:(lia))
    as (Hlen & Hrev & Hfirst & Hlast).
  fold long_string in Hlen, Hrev, Hfirst, Hlast.
  intros (len & str' & Hlen' & Hrev' & Hswap).
  rewrite Hlen in Hlen'. injection Hlen' as <-.
  rewrite Hrev in Hrev'. injection Hrev' as <-.
  specialize (Hswap 0%nat ltac:(lia)).
  rewrite Hfirst, Hlast in Hswap. discriminate.
Qed.

(** C5: [reverseString] is an involution: on every terminated buffer it
    returns, and applied to its result it returns the original buffer. *)
Theorem reverseString_involutive (str : list ascii) (len : nat)
    (Hlen : strlen str = Val len) :
  ∃ str', reverseString str = Val str' ∧ reverseString str' = Val str.
Proof.
  destruct (reverseString_spec str len Hlen) as (Hrev & Hm & Hlt).
  set (m := Z.to_nat (int_of_size len)) in *.
  exists (reverse_prefix m str). split; [done|].
  pose proof (strlen_reverse_prefix m str len Hlen Hm) as Hlen'.
  destruct (reverseString_spec _ len Hlen') as (-> & _). fold m.
  by rewrite reverse_prefix_involutive by lia.
Qed.

Lemma reverseString_involutive_witness :
  strlen (c_string "Hello World") = Val 11%nat ∧
  ∃ str', reverseString (c_string "Hello World") = Val str' ∧
          reverseString str' = Val (c_string "Hello World").
Proof.
  assert (strlen (c_string "Hello World") = Val 11%nat) as Hlen
    by (vm_compute; reflexivity).
  split; [exact Hlen|].
  exact (reverseString_involutive (c_string "Hello World") 11 Hlen).
Defined.

(** C10: on every terminated buffer [reverseString] returns a buffer of the
    same size that is a permutation of the original, also when restricted to
    the characters before the terminator; the string length is the same and
    the terminator and everything after it are where they were. *)
Theorem reverseString_preserves (str : list ascii) (len : nat)
    (Hlen : strlen str = Val len) :
  ∃ str', reverseString str = Val str' ∧
    length str' = length str ∧
    str' ≡ₚ str ∧
    take len str' ≡ₚ take len str ∧
    strlen str' = Val len ∧
    str' !! len = Some nul ∧
    drop len str' = drop len str.
Proof.
  destruct (reverseString_spec str len Hlen) as (Hrev & Hm & Hlt).
  set (m := Z.to_nat (int_of_size len)) in *.
  exists (reverse_prefix m str). split; [done|].
  split; [apply length_reverse_prefix|].
  split; [apply reverse_prefix_Permutation|].
  pose proof (strlen_reverse_prefix m str len Hlen Hm) as Hlen'.
  destruct (strlen_split str len Hlen) as (body & rest & -> & <- & Hall).
  rewrite reverse_prefix_app in * by done.
  pose proof (length_reverse_prefix m body) as Hsize.
  split; [|split; [done|split]].
  - rewrite take_app_length, take_app_length' by done.
    apply reverse_prefix_Permutation.
  - by apply list_lookup_middle.
  - by rewrite drop_app_length, drop_app_length'.
Qed.

Lemma reverseString_preserves_witness :
  strlen (c_string "Hello World") = Val 11%nat ∧
  ∃ str', reverseString (c_string "Hello World") = Val str' ∧
          str' ≡ₚ c_string "Hello World" ∧ strlen str' = Val 11%nat.
Proof.
  assert (strlen (c_string "Hello World") = Val 11%nat) as Hlen
    by (vm_compute; reflexivity).
  split; [exact Hlen|].
  destruct (reverseString_preserves (c_string "Hello World") 11 Hlen)
    as (str' & Hrev & _ & Hperm & _ & Hlen' & _).
  exists str'. split; [exact Hrev|]. split; [exact Hperm|exact Hlen'].
Defined.

(** ** The driver *)

(** C6: the array demonstration sums [{3,7,1,9,4,6,2,8,5}] to 45, and the
    average [(float)45 / 9], which is exactly 5, is printed with two decimals
    as [5.00]. *)
Theorem array_sum_average :
  array_sum = Val 45 ∧
  array_average 45 numbers_size = float_of_int 5 ∧
  fmt_d 45 = "45" ∧
  fmt_f2 (array_average 45 numbers_size) = "5.00".
Proof. repeat split; vm_compute; reflexivity. Qed.

(** C7 (as amended): the loop writes each of the integers 1 to 10 followed by
    one space, the last one included: [1 2 3 4 5 6 7 8 9 10 ]. *)
Theorem numbers_1_10_output : numbers_1_10 = Val "1 2 3 4 5 6 7 8 9 10 ".
Proof. vm_compute. reflexivity. Qed.

(** C7 (as stated) fails: the text written is not [1 2 3 4 5 6 7 8 9 10]
    without a space after the 10. *)
Lemma numbers_1_10_trailing_space : numbers_1_10 ≠ Val "1 2 3 4 5 6 7 8 9 10".
Proof. intros Hout. vm_compute in Hout. discriminate Hout. Qed.

(** C8: the driver completes: it runs the five demonstrations in order,
    writes the text of [expected_output], traps nowhere and returns status
    0. *)
Theorem main_completes : main = Val (expected_output, 0).
Proof. vm_compute. reflexivity. Qed.

(** * Further properties *)

(** ** factorial on the whole of [int] *)

Lemma wrap_mul_wrap a x : wrap (a * wrap x) = wrap (a * x).
Proof.
  unfold wrap. f_equal.
  pose proof (Z.mod_eq (x + 2147483648) 4294967296 ltac:(lia)) as Hx.
  replace (a * ((x + 2147483648) mod 4294967296 - 2147483648) + 2147483648)
    with (a * x + 2147483648 + (- a * ((x + 2147483648) / 4294967296)) * 4294967296)
    by lia.
  apply Z_mod_plus_full.
Qed.

Lemma factorial_of_nat (m : nat) :
  Z.of_nat m <= int_max → factorial (Z.of_nat m) = Val (wrap (fact_Z m)).
Proof.
  induction m as [|m IH]; intros Hmax; [done|].
  destruct m as [|m]; [done|].
  rewrite factorial_unfold by lia.
  replace (Z.of_nat (S (S m)) - 1) with (Z.of_nat (S m)) by lia.
  rewrite IH by lia. cbn [mbind outcome_bind].
  unfold int_mul. by rewrite wrap_mul_wrap.
Qed.

(** X1: on every non-negative [int], [factorial n] is [n!] reduced modulo
    [2^32] to the range of [int]. *)
Theorem factorial_modular (n : Z) (Hn : 0 <= n <= int_max) :
  factorial n = Val (wrap (fact_Z (Z.to_nat n))).
Proof.
  rewrite <- (Z2Nat.id n) at 1 by lia. apply factorial_of_nat. lia.
Qed.

Lemma factorial_modular_witness :
  0 <= 13 <= int_max ∧ factorial 13 = Val (wrap (fact_Z (Z.to_nat 13))).
Proof.
  assert (0 <= 13 <= int_max) as H13 by (unfold int_max; lia).
  split; [exact H13|]. exact (factorial_modular 13 H13).
Defined.

Lemma fact_Z_from_13 (m : nat) : (13 <= m)%nat → 6227020800 <= fact_Z m.
Proof.
  induction 1 as [|m Hle IH]; [vm_compute; discriminate|].
  cbn [fact_Z]. nia.
Qed.

(** X2: [factorial n] is the mathematical [n!] exactly when [n <= 12]: from
    13 on [n!] does not fit an [int]. *)
Theorem factorial_exact_iff (n : Z) (Hn : 0 <= n <= int_max) :
  factorial n = Val (fact_Z (Z.to_nat n)) ↔ n <= 12.
Proof.
  split.
  - intros Hexact. destruct (Z_le_gt_dec n 12) as [|Hbig]; [done|]. exfalso.
    destruct (factorial_fuel_returns n (factorial_depth n)) as (v & Hv & Hin); [lia|lia|].
    fold (factorial n) in Hv. rewrite Hexact in Hv. injection Hv as <-.
    pose proof (fact_Z_from_13 (Z.to_nat n) ltac:(lia)). int_range.
  - intros Hsmall. apply factorial_small. lia.
Qed.

Lemma factorial_exact_iff_witness :
  0 <= 12 <= int_max ∧ factorial 12 = Val (fact_Z (Z.to_nat 12)).
Proof.
  assert (0 <= 12 <= int_max) as H12 by (unfold int_max; lia).
  split; [exact H12|]. apply (factorial_exact_iff 12 H12). lia.
Defined.

Lemma factorial_34_of_nat (k : nat) :
  34 + Z.of_nat k <= int_max → factorial (34 + Z.of_nat k) = Val 0.
Proof.
  induction k as [|k IH]; intros Hmax; [vm_compute; reflexivity|].
  rewrite factorial_unfold by lia.
  replace (34 + Z.of_nat (S k) - 1) with (34 + Z.of_nat k) by lia.
  rewrite IH by lia. cbn [mbind outcome_bind].
  unfold int_mul. by rewrite Z.mul_0_r.
Qed.

(** X3: from 34 on [factorial] returns 0: [34!] is a multiple of [2^32],
    and so is every later product. *)
Theorem factorial_zero_from_34 (n : Z) (Hn : 34 <= n <= int_max) :
  factorial n = Val 0.
Proof.
  replace n with (34 + Z.of_nat (Z.to_nat (n - 34))) by lia.
  apply factorial_34_of_nat. lia.
Qed.

Lemma factorial_zero_from_34_witness :
  34 <= 40 <= int_max ∧ factorial 40 = Val 0 ∧ factorial 33 = Val (-2147483648).
Proof.
  assert (34 <= 40 <= int_max) as H40 by (unfold int_max; lia).
  split; [exact H40|]. split; [exact (factorial_zero_from_34 40 H40)|].
  vm_compute. reflexivity.
Defined.

(** *** Without wrap-around *)

Lemma checked_in_int z : in_int z → checked z = Val z.
Proof.
  intros [Hlo Hhi]. unfold checked.
  by rewrite (proj2 (Z.leb_le _ _) Hlo), (proj2 (Z.leb_le _ _) Hhi).
Qed.

Lemma checked_above z : int_max < z → checked z = Undef.
Proof.
  intros Hz. unfold checked.
  rewrite (proj2 (Z.leb_gt z int_max)) by lia. by rewrite andb_false_r.
Qed.

Lemma factorial_strict_fuel_gt_1 fuel n :
  2 <= n <= int_max →
  factorial_strict_fuel (S fuel) n
  = r ← factorial_strict_fuel fuel (n - 1); checked (n * r).
Proof.
  intros Hn. cbn [factorial_strict_fuel].
  rewrite (proj2 (Z.leb_gt n 1)) by lia.
  by rewrite checked_in_int by int_range.
Qed.

Lemma factorial_strict_unfold n :
  2 <= n <= int_max →
  factorial_strict n = r ← factorial_strict (n - 1); checked (n * r).
Proof.
  intros Hn. unfold factorial_strict. rewrite factorial_depth_pred by lia.
  by rewrite factorial_strict_fuel_gt_1.
Qed.

Lemma factorial_strict_13_of_nat (k : nat) :
  13 + Z.of_nat k <= int_max → factorial_strict (13 + Z.of_nat k) = Undef.
Proof.
  induction k as [|k IH]; intros Hmax; [vm_compute; reflexivity|].
  rewrite factorial_strict_unfold by lia.
  replace (13 + Z.of_nat (S k) - 1) with (13 + Z.of_nat k) by lia.
  by rewrite IH by lia.
Qed.

Lemma factorial_strict_small n : n <= 12 → factorial_strict n = factorial n.
Proof.
  intros Hn. destruct (Z_le_gt_dec n 1) as [Hle|Hgt].
  - unfold factorial_strict, factorial, factorial_depth.
    rewrite factorial_fuel_le_1 by done. cbn [factorial_strict_fuel].
    by rewrite (proj2 (Z.leb_le n 1)).
  - assert (n = 2 ∨ n = 3 ∨ n = 4 ∨ n = 5 ∨ n = 6 ∨ n = 7 ∨
            n = 8 ∨ n = 9 ∨ n = 10 ∨ n = 11 ∨ n = 12) as Hcases by lia.
    repeat (destruct Hcases as [->|Hcases]; [vm_compute; reflexivity|]).
    subst n. vm_compute. reflexivity.
Qed.

(** X4: read without wrap-around, [factorial] overflows, and so has no
    defined result, exactly for the arguments from 13 on; up to 12 no
    operation overflows and the result is the one computed with wrap-around. *)
Theorem factorial_overflow_iff (n : Z) (Hn : in_int n) :
  (factorial_strict n = Undef ↔ 13 <= n) ∧
  (n <= 12 → factorial_strict n = factorial n).
Proof.
  destruct Hn as [Hlo Hhi]. split; [|apply factorial_strict_small].
  split.
  - intros Hundef. destruct (Z_le_gt_dec 13 n) as [|Hsmall]; [done|]. exfalso.
    rewrite factorial_strict_small in Hundef by lia.
    destruct (factorial_fuel_returns n (factorial_depth n)) as (v & Hv & _); [lia|lia|].
    fold (factorial n) in Hv. congruence.
  - intros Hbig. replace n with (13 + Z.of_nat (Z.to_nat (n - 13))) by lia.
    apply factorial_strict_13_of_nat. lia.
Qed.

Lemma factorial_overflow_iff_witness :
  in_int 13 ∧ factorial_strict 13 = Undef ∧ factorial_strict 12 = Val 479001600.
Proof.
  assert (in_int 13) as H13 by (unfold in_int, int_min, int_max; lia).
  split; [exact H13|]. split; [|vm_compute; reflexivity].
  apply (factorial_overflow_iff 13 H13). lia.
Defined.

(** ** isPrime on the whole of [int] *)

Lemma is_prime_no_proper_divisor num d :
  is_prime num → 1 < d < num → Z.rem num d ≠ 0.
Proof.
  intros Hp Hd Hrem. apply rem_zero_divide in Hrem; [|lia].
  by apply (proper_divisor_not_prime num d).
Qed.

Lemma checked_Val z v : checked z = Val v → v = z ∧ in_int z.
Proof.
  unfold checked, in_int.
  destruct (Z.leb_spec int_min z), (Z.leb_spec z int_max); cbn [andb]; intros [=]; lia.
Qed.

Lemma isPrime_loop_strict_unfold fuel num i :
  isPrime_loop_strict (S fuel) num i =
    sq ← checked (i * i);
    if sq <=? num then
      r1 ← int_rem num i;
      if r1 =? 0 then Val 0
      else
        i2 ← checked (i + 2);
        r2 ← int_rem num i2;
        if r2 =? 0 then Val 0
        else
          i6 ← checked (i + 6);
          isPrime_loop_strict fuel num i6
    else Val 1.
Proof. reflexivity. Qed.

(** Whatever the loop returns without overflow, it returns with wrap-around. *)
Lemma isPrime_loop_strict_refines fuel num i v :
  isPrime_loop_strict fuel num i = Val v → isPrime_loop fuel num i = Val v.
Proof.
  revert i. induction fuel as [|fuel IH]; intros i Hv; [done|].
  rewrite isPrime_loop_strict_unfold in Hv. rewrite isPrime_loop_unfold.
  destruct (checked (i * i)) as [sq| |] eqn:Hsq; cbn [mbind outcome_bind] in Hv; try done.
  apply checked_Val in Hsq as [-> Hfit].
  unfold int_mul. rewrite wrap_id by done.
  destruct (i * i <=? num); [|done].
  destruct (int_rem num i) as [r1| |]; cbn [mbind outcome_bind] in *; try done.
  destruct (r1 =? 0); [done|].
  destruct (checked (i + 2)) as [i2| |] eqn:Hi2; cbn [mbind outcome_bind] in Hv; try done.
  apply checked_Val in Hi2 as [-> Hfit2].
  replace (int_add i 2) with (i + 2) by (unfold int_add; by rewrite wrap_id).
  destruct (int_rem num (i + 2)) as [r2| |]; cbn [mbind outcome_bind] in *; try done.
  destruct (r2 =? 0); [done|].
  destruct (checked (i + 6)) as [i6| |] eqn:Hi6; cbn [mbind outcome_bind] in Hv; try done.
  apply checked_Val in Hi6 as [-> Hfit6].
  unfold int_add. rewrite wrap_id by done. by apply IH.
Qed.

Lemma isPrime_strict_fuel_refines fuel num v :
  isPrime_strict_fuel fuel num = Val v → isPrime_fuel fuel num = Val v.
Proof.
  unfold isPrime_strict_fuel, isPrime_fuel.
  destruct (num <=? 1); [done|]. destruct (num <=? 3); [done|].
  destruct (int_rem num 2) as [r2| |]; cbn [mbind outcome_bind]; try done.
  destruct (r2 =? 0); [done|].
  destruct (int_rem num 3) as [r3| |]; cbn [mbind outcome_bind]; try done.
  destruct (r3 =? 0); [done|]. apply isPrime_loop_strict_refines.
Qed.

Lemma sqrt_rounds_bound num k :
  0 <= num → 1 <= k → (6 * k - 1) * (6 * k - 1) <= num → k <= Z.sqrt num / 6 + 1.
Proof.
  intros Hnum Hk Hsq.
  assert (6 * k - 1 <= Z.sqrt num) as Hle by (apply Z.sqrt_le_square; lia).
  pose proof (Z.div_mod (Z.sqrt num) 6 ltac:(lia)) as Hdm.
  pose proof (Z.mod_pos_bound (Z.sqrt num) 6 ltac:(lia)) as Hr. lia.
Qed.

Section StrictLoop.
Variable num : Z.
Hypothesis Hnum : 3 < num.
Hypothesis Hmax : num <= int_max.
Hypothesis H2 : ¬ (2 | num).
Hypothesis H3 : ¬ (3 | num).

(** The loop without wrap-around, entered at [i = 6 k + 5]: it answers 1 for
    a prime below [isPrime_overflow_from], 0 for a number that is not prime,
    and overflows for a prime from [isPrime_overflow_from] on; it is left
    after the candidates up to the square root. *)
Lemma isPrime_loop_strict_spec fuel k :
  0 <= k → tested num k →
  (k = 0 ∨ (6 * k - 1) * (6 * k - 1) <= num) →
  Z.sqrt num / 6 + 1 - k < Z.of_nat fuel →
  (isPrime_loop_strict fuel num (6 * k + 5) = Val 1 ∧
   is_prime num ∧ num < isPrime_overflow_from) ∨
  (isPrime_loop_strict fuel num (6 * k + 5) = Val 0 ∧ ¬ is_prime num) ∨
  (isPrime_loop_strict fuel num (6 * k + 5) = Undef ∧
   is_prime num ∧ isPrime_overflow_from <= num).
Proof using Hnum Hmax H2 H3.
  revert k. induction fuel as [|fuel IH]; intros k Hk Ht Hhist Hfuel.
  { exfalso. pose proof (Z.sqrt_nonneg num) as Hs.
    pose proof (Z.div_pos (Z.sqrt num) 6 Hs ltac:(lia)) as Hq.
    destruct Hhist as [->|Hsq]; [lia|].
    pose proof (sqrt_rounds_bound num k ltac:(lia) ltac:(lia) Hsq). lia. }
  rewrite isPrime_loop_strict_unfold. remember (6 * k + 5) as i eqn:Hi.
  destruct (Z_le_gt_dec (i * i) int_max) as [Hfit|Hover].
  - (* [i * i] fits *)
    assert (i <= 46337) as Hi_max.
    { destruct (Z_le_gt_dec 46341 i) as [Hbig|]; [|lia].
      pose proof (Z.mul_le_mono_nonneg 46341 i 46341 i). int_range. }
    rewrite (checked_in_int (i * i)) by (unfold in_int, int_min, int_max in *; nia).
    cbn [mbind outcome_bind].
    destruct (Z.leb_spec (i * i) num) as [Hcond|Hcond].
    + rewrite (int_rem_pos num i) by lia. cbn [mbind outcome_bind].
      destruct (Z.eqb_spec (Z.rem num i) 0) as [Hr1|Hr1].
      { right; left. split; [done|].
        apply rem_zero_divide in Hr1; [|lia].
        apply (proper_divisor_not_prime num i); [nia|done]. }
      rewrite (checked_in_int (i + 2)) by int_range. cbn [mbind outcome_bind].
      rewrite (int_rem_pos num (i + 2)) by lia. cbn [mbind outcome_bind].
      destruct (Z.eqb_spec (Z.rem num (i + 2)) 0) as [Hr2|Hr2].
      { right; left. split; [done|].
        apply rem_zero_divide in Hr2; [|lia].
        apply (proper_divisor_not_prime num (i + 2)); [nia|done]. }
      rewrite (checked_in_int (i + 6)) by int_range. cbn [mbind outcome_bind].
      rewrite rem_zero_divide in Hr1, Hr2 by lia.
      replace (i + 6) with (6 * (k + 1) + 5) by lia.
      apply IH; [lia| | |lia].
      * apply tested_succ; [done|by rewrite <- Hi|].
        by replace (6 * k + 7) with (i + 2) by lia.
      * right. by replace (6 * (k + 1) - 1) with i by lia.
    + left. split; [done|]. split.
      * apply (trial_division_prime num Hnum H2 H3 k); [done|done|by rewrite <- Hi].
      * unfold isPrime_overflow_from.
        pose proof (Z.mul_le_mono_nonneg i 46337 i 46337). lia.
  - (* [i * i] overflows *)
    rewrite (checked_above (i * i)) by lia. cbn [mbind outcome_bind].
    right; right. split; [done|]. split.
    + apply (trial_division_prime num Hnum H2 H3 k); [done|done|]. rewrite <- Hi. lia.
    + pose proof (square_overflows i ltac:(lia) ltac:(lia)) as Hbig.
      destruct Hhist as [->|Hsq]; [lia|].
      unfold isPrime_overflow_from.
      pose proof (Z.mul_le_mono_nonneg 46337 (6 * k - 1) 46337 (6 * k - 1)). lia.
Qed.
End StrictLoop.

Lemma isPrime_strict_fuel_spec fuel num :
  in_int num → (3 < num → Z.sqrt num / 6 + 1 < Z.of_nat fuel) →
  (isPrime_strict_fuel fuel num = Val 1 ∧ is_prime num ∧ num < isPrime_overflow_from) ∨
  (isPrime_strict_fuel fuel num = Val 0 ∧ ¬ is_prime num) ∨
  (isPrime_strict_fuel fuel num = Undef ∧ is_prime num ∧ isPrime_overflow_from <= num).
Proof.
  intros [Hlo Hhi] Hfuel. unfold isPrime_strict_fuel.
  destruct (Z.leb_spec num 1) as [Hle1|Hgt1].
  { right; left. split; [done|]. intros [? _]. lia. }
  destruct (Z.leb_spec num 3) as [Hle3|Hgt3].
  { left. split; [done|]. split; [|unfold isPrime_overflow_from; lia].
    assert (num = 2 ∨ num = 3) as [->| ->] by lia; [apply is_prime_2|apply is_prime_3]. }
  rewrite (int_rem_pos num 2), (int_rem_pos num 3) by lia.
  cbn [mbind outcome_bind].
  destruct (Z.eqb_spec (Z.rem num 2) 0) as [Hr2|Hr2].
  { right; left. split; [done|].
    apply rem_zero_divide in Hr2; [|lia].
    apply (proper_divisor_not_prime num 2); [lia|done]. }
  destruct (Z.eqb_spec (Z.rem num 3) 0) as [Hr3|Hr3].
  { right; left. split; [done|].
    apply rem_zero_divide in Hr3; [|lia].
    apply (proper_divisor_not_prime num 3); [lia|done]. }
  rewrite rem_zero_divide in Hr2, Hr3 by lia.
  apply (isPrime_loop_strict_spec num Hgt3 Hhi Hr2 Hr3 fuel 0);
    [done|apply tested_0|by left|]. specialize (Hfuel Hgt3). lia.
Qed.

(** The fuel of [isPrime] is more than the square root asks for. *)
Lemma sqrt_fuel num : 3 < num → Z.sqrt num / 6 + 1 < Z.of_nat (Z.to_nat num).
Proof.
  intros Hnum. pose proof (Z.sqrt_le_lin num ltac:(lia)) as Hs.
  pose proof (Z.sqrt_nonneg num) as Hs0.
  pose proof (Z.div_mod (Z.sqrt num) 6 ltac:(lia)) as Hdm.
  pose proof (Z.mod_pos_bound (Z.sqrt num) 6 ltac:(lia)) as Hr. lia.
Qed.

Lemma isPrime_strict_spec num :
  in_int num →
  (isPrime_strict num = Val 1 ∧ is_prime num ∧ num < isPrime_overflow_from) ∨
  (isPrime_strict num = Val 0 ∧ ¬ is_prime num) ∨
  (isPrime_strict num = Undef ∧ is_prime num ∧ isPrime_overflow_from <= num).
Proof. intros Hin. apply isPrime_strict_fuel_spec; [done|apply sqrt_fuel]. Qed.

(** X5: on every [int], [isPrime] returns 0 or 1 within [num] rounds of its
    loop: no remainder is taken by zero and, even where [i * i] has wrapped,
    the loop is left at the latest when [i] or [i + 2] reaches [num]. *)
Theorem isPrime_returns (num : Z) (fuel : nat)
    (Hnum : in_int num) (Hfuel : (Z.to_nat num <= fuel)%nat) :
  (isPrime_fuel fuel num = Val 0 ∨ isPrime_fuel fuel num = Val 1) ∧
  isPrime_fuel fuel num = isPrime num.
Proof.
  destruct (isPrime_spec num Hnum) as [[H1 _]|[H0 _]].
  - assert (isPrime_fuel fuel num = Val 1) as ->; [|by auto].
    revert H1. unfold isPrime, isPrime_fuel.
    destruct (num <=? 1); [done|]. destruct (num <=? 3); [done|].
    destruct (int_rem num 2) as [r2| |]; cbn [mbind outcome_bind]; try done.
    destruct (r2 =? 0); [done|].
    destruct (int_rem num 3) as [r3| |]; cbn [mbind outcome_bind]; try done.
    destruct (r3 =? 0); [done|]. by apply isPrime_loop_mono.
  - assert (isPrime_fuel fuel num = Val 0) as ->; [|by auto].
    revert H0. unfold isPrime, isPrime_fuel.
    destruct (num <=? 1); [done|]. destruct (num <=? 3); [done|].
    destruct (int_rem num 2) as [r2| |]; cbn [mbind outcome_bind]; try done.
    destruct (r2 =? 0); [done|].
    destruct (int_rem num 3) as [r3| |]; cbn [mbind outcome_bind]; try done.
    destruct (r3 =? 0); [done|]. by apply isPrime_loop_mono.
Qed.

Lemma isPrime_returns_witness :
  in_int 91 ∧ (Z.to_nat 91 <= 100)%nat ∧ isPrime_fuel 100 91 = isPrime 91.
Proof.
  assert (in_int 91) as Hin by (unfold in_int, int_min, int_max; lia).
  assert (Z.to_nat 91 <= 100)%nat as Hfuel by lia.
  split; [exact Hin|]. split; [exact Hfuel|].
  apply (isPrime_returns 91 100 Hin Hfuel).
Defined.

(** X6: on every [int], wrapped products included, a number that
    [isPrime] accepts is prime. *)
Theorem isPrime_accepts_only_primes (num : Z)
    (Hnum : in_int num) (Haccept : isPrime num = Val 1) :
  is_prime num.
Proof.
  destruct (isPrime_spec num Hnum) as [[_ Hp]|[H0 _]]; [done|congruence].
Qed.

Lemma isPrime_accepts_only_primes_witness :
  in_int 97 ∧ isPrime 97 = Val 1 ∧ is_prime 97.
Proof.
  assert (in_int 97) as Hin by (unfold in_int, int_min, int_max; lia).
  assert (isPrime 97 = Val 1) as Hacc by (vm_compute; reflexivity).
  split; [exact Hin|]. split; [exact Hacc|].
  exact (isPrime_accepts_only_primes 97 Hin Hacc).
Defined.

(** X7: below [46337 * 46337 = 2147117569], [isPrime] decides primality:
    it returns 1 for the primes and 0 for every other number. *)
Theorem isPrime_decides_below (num : Z)
    (Hnum : in_int num) (Hbelow : num < isPrime_overflow_from) :
  (isPrime num = Val 1 ↔ is_prime num) ∧ (isPrime num = Val 0 ↔ ¬ is_prime num).
Proof.
  destruct (isPrime_spec num Hnum) as [[-> Hp]|[-> Hp]].
  - split; split; try done; intros; simplify_eq.
  - assert (¬ is_prime num) by (intros Hp'; specialize (Hp Hp'); lia).
    split; split; try done; intros; simplify_eq.
Qed.

Lemma isPrime_decides_below_witness :
  in_int 91 ∧ 91 < isPrime_overflow_from ∧ ¬ is_prime 91.
Proof.
  assert (in_int 91) as Hin by (unfold in_int, int_min, int_max; lia).
  assert (91 < isPrime_overflow_from) as Hlt by (unfold isPrime_overflow_from; lia).
  split; [exact Hin|]. split; [exact Hlt|].
  apply (isPrime_decides_below 91 Hin Hlt). vm_compute. reflexivity.
Defined.

(** X8: read without wrap-around, [isPrime] overflows, and so has no
    defined result, exactly for the primes from [2147117569] on; on every
    other [int] no operation overflows and the result is the one computed
    with wrap-around. *)
Theorem isPrime_overflow_iff (num : Z) (Hnum : in_int num) :
  (isPrime_strict num = Undef ↔ is_prime num ∧ isPrime_overflow_from <= num) ∧
  (isPrime_strict num ≠ Undef → isPrime_strict num = isPrime num).
Proof.
  destruct (isPrime_strict_spec num Hnum)
    as [(Hv & Hp & Hlt)|[(Hv & Hnp)|(Hv & Hp & Hge)]]; rewrite Hv.
  - split; [split; [done|intros [_ ?]; lia]|]. intros _.
    unfold isPrime_strict in Hv. apply isPrime_strict_fuel_refines in Hv.
    by fold (isPrime num) in Hv.
  - split; [split; [done|intros [? _]; done]|]. intros _.
    unfold isPrime_strict in Hv. apply isPrime_strict_fuel_refines in Hv.
    by fold (isPrime num) in Hv.
  - split; [done|]. by intros [].
Qed.

Lemma isPrime_overflow_iff_witness :
  in_int 2147483647 ∧ isPrime_strict 2147483647 = Undef ∧
  (isPrime_strict 97 = Val 1).
Proof.
  assert (in_int 2147483647) as Hin by (unfold in_int, int_min, int_max; lia).
  split; [exact Hin|]. split; [|vm_compute; reflexivity].
  destruct (isPrime_overflow_iff 2147483647 Hin) as [[_ Hundef] _].
  apply Hundef.
  split; [exact is_prime_int_max|unfold isPrime_overflow_from; lia].
Defined.

(** X9: below [2147117569] the loop of [isPrime] is left after the
    candidates up to the square root: [sqrt num / 6 + 2] rounds are enough
    for the result. *)
Theorem isPrime_sqrt_rounds (num : Z) (fuel : nat)
    (Hnum : in_int num) (Hbelow : num < isPrime_overflow_from)
    (Hfuel : Z.sqrt num / 6 + 1 < Z.of_nat fuel) :
  isPrime_fuel fuel num = isPrime num.
Proof.
  destruct (isPrime_strict_fuel_spec fuel num Hnum (λ _, Hfuel))
    as [(Hv & Hp & _)|[(Hv & Hnp)|(_ & _ & Hge)]]; [| |lia];
    apply isPrime_strict_fuel_refines in Hv; rewrite Hv; symmetry.
  - destruct (isPrime_spec num Hnum) as [[H1 _]|[_ Hge]]; [done|].
    specialize (Hge Hp). lia.
  - destruct (isPrime_spec num Hnum) as [[_ Hp]|[H0 _]]; done.
Qed.

Lemma isPrime_sqrt_rounds_witness :
  in_int 1000003 ∧ 1000003 < isPrime_overflow_from ∧
  Z.sqrt 1000003 / 6 + 1 < Z.of_nat 168 ∧
  isPrime_fuel 168 1000003 = isPrime 1000003.
Proof.
  assert (in_int 1000003) as Hin by (unfold in_int, int_min, int_max; lia).
  assert (1000003 < isPrime_overflow_from) as Hlt
    by (unfold isPrime_overflow_from; lia).
  assert (Z.sqrt 1000003 / 6 + 1 < Z.of_nat 168) as Hfuel
    by (vm_compute; reflexivity).
  split; [exact Hin|]. split; [exact Hlt|]. split; [exact Hfuel|].
  exact (isPrime_sqrt_rounds 1000003 168 Hin Hlt Hfuel).
Defined.

(** ** reverseString on any buffer *)




Lemma int_of_size_overlong (n : nat) :
  2147483648 <= Z.of_nat n <= 4294967297 → int_of_size n <= 1.
Proof.
  intros Hn. unfold int_of_size, wrap.
  replace (Z.of_nat n + 2147483648)
    with (Z.of_nat n - 2147483648 + 1 * 4294967296) by lia.
  rewrite Z_mod_plus_full, Z.mod_small by lia. lia.
Qed.

(** X11: on a terminated buffer of any length [n], [reverseString] reverses
    the first [(int) n] characters, none when that is negative, and leaves
    the rest; in particular a string of [2^31] to [2^32 + 1] characters is
    left as it was. *)
Theorem reverseString_prefix (str : list ascii) (n : nat)
    (Hn : strlen str = Val n) :
  reverseString str = Val (reverse_prefix (Z.to_nat (int_of_size n)) str) ∧
  (2147483648 <= Z.of_nat n <= 4294967297 → reverseString str = Val str).
Proof.
  destruct (reverseString_spec str n Hn) as (Hrev & _). split; [done|].
  intros Hlong. rewrite Hrev.
  pose proof (int_of_size_overlong n Hlong).
  by rewrite reverse_prefix_short by lia.
Qed.

Lemma reverseString_prefix_witness :
  strlen (c_string "abcd") = Val 4%nat ∧
  reverseString (c_string "abcd") = Val (c_string "dcba").
Proof.
  assert (strlen (c_string "abcd") = Val 4%nat) as Hn by (vm_compute; reflexivity).
  split; [exact Hn|].
  destruct (reverseString_prefix (c_string "abcd") 4 Hn) as [-> _].
  vm_compute. reflexivity.
Defined.

(** X12: a string [body] of at most [INT_MAX] characters, followed by its
    terminator and anything else, becomes the reversed [body] followed by
    the terminator and the same rest. *)
Theorem reverseString_reverse (body rest : list ascii)
    (Hbody : Forall (λ c, c ≠ nul) body)
    (Hfit : Z.of_nat (length body) <= int_max) :
  reverseString (body ++ nul :: rest) = Val (reverse body ++ nul :: rest).
Proof.
  pose proof (strlen_app body rest Hbody) as Hlen.
  destruct (reverseString_spec _ _ Hlen) as (-> & _).
  rewrite int_of_size_fits by done.
  rewrite reverse_prefix_app by done. unfold reverse_prefix.
  by rewrite take_ge, drop_ge, app_nil_r by done.
Qed.

Lemma reverseString_reverse_witness :
  Forall (λ c, c ≠ nul) ["o"; "n"]%char ∧
  Z.of_nat (length ["o"; "n"]%char) <= int_max ∧
  reverseString (["o"; "n"]%char ++ nul :: ["x"]%char)
  = Val (reverse ["o"; "n"]%char ++ nul :: ["x"]%char).
Proof.
  assert (Forall (λ c, c ≠ nul) ["o"; "n"]%char) as Hbody
    by (repeat constructor; discriminate).
  assert (Z.of_nat (length ["o"; "n"]%char) <= int_max) as Hfit
    by (vm_compute; discriminate).
  split; [exact Hbody|]. split; [exact Hfit|].
  exact (reverseString_reverse _ _ Hbody Hfit).
Defined.

(** ** The summing loop on any array *)

Lemma wrap_add_wrap a b : wrap (wrap a + b) = wrap (a + b).
Proof.
  unfold wrap. f_equal.
  pose proof (Z.mod_eq (a + 2147483648) 4294967296 ltac:(lia)) as Ha.
  replace ((a + 2147483648) mod 4294967296 - 2147483648 + b + 2147483648)
    with (a + b + 2147483648 + (- ((a + 2147483648) / 4294967296)) * 4294967296)
    by lia.
  apply Z_mod_plus_full.
Qed.

Lemma sum_loop_unfold fuel arr size i sum :
  sum_loop (S fuel) arr size i sum =
    if i <? size then
      x ← load arr i;
      sum_loop fuel arr size (int_add i 1) (int_add sum x)
    else Val sum.
Proof. reflexivity. Qed.

Lemma sum_loop_spec fuel (arr : list Z) (i : nat) (acc : Z) :
  Z.of_nat (length arr) <= int_max → (i <= length arr)%nat →
  (length arr - i < fuel)%nat →
  sum_loop fuel arr (Z.of_nat (length arr)) (Z.of_nat i) (wrap acc)
  = Val (wrap (acc + sum_Z (drop i arr))).
Proof.
  intros Hmax. revert i acc.
  induction fuel as [|fuel IH]; intros i acc Hi Hfuel; [lia|].
  rewrite sum_loop_unfold.
  destruct (Z.ltb_spec (Z.of_nat i) (Z.of_nat (length arr))) as [Hlt|Hge].
  - destruct (lookup_lt_is_Some_2 arr i ltac:(lia)) as [x Hx].
    unfold load. rewrite (proj2 (Z.leb_le _ _)), (proj2 (Z.ltb_lt _ _)) by lia.
    cbn [andb]. rewrite Nat2Z.id, Hx. cbn [mbind outcome_bind].
    assert (int_add (Z.of_nat i) 1 = Z.of_nat (S i)) as ->.
    { unfold int_add. rewrite wrap_id by int_range. lia. }
    unfold int_add. rewrite wrap_add_wrap.
    rewrite IH by lia. rewrite (drop_S arr x i Hx).
    unfold sum_Z. cbn [foldr]. f_equal. f_equal. lia.
  - rewrite drop_ge by lia. unfold sum_Z. cbn [foldr]. by rewrite Z.add_0_r.
Qed.

(** X13: for an array of any content, of at most [INT_MAX] elements, the
    summing loop of the driver stays inside the array and leaves in [sum]
    the sum of the elements reduced to [int]: the sum itself when it fits. *)
Theorem sum_loop_sums (arr : list Z) (fuel : nat)
    (Hsize : Z.of_nat (length arr) <= int_max) (Hfuel : (length arr < fuel)%nat) :
  sum_loop fuel arr (Z.of_nat (length arr)) 0 0 = Val (wrap (sum_Z arr)) ∧
  (in_int (sum_Z arr) → sum_loop fuel arr (Z.of_nat (length arr)) 0 0 = Val (sum_Z arr)).
Proof.
  assert (sum_loop fuel arr (Z.of_nat (length arr)) 0 0 = Val (wrap (sum_Z arr))) as Hsum.
  { pose proof (sum_loop_spec fuel arr 0 0 Hsize ltac:(lia) ltac:(lia)) as Hspec.
    by rewrite drop_0 in Hspec. }
  split; [done|]. intros Hfit. by rewrite Hsum, wrap_id.
Qed.

Lemma sum_loop_sums_witness :
  Z.of_nat (length [2147483647; 1; -5]%Z) <= int_max ∧
  (length [2147483647; 1; -5]%Z < 4)%nat ∧
  sum_loop 4 [2147483647; 1; -5] (Z.of_nat (length [2147483647; 1; -5]%Z)) 0 0
  = Val 2147483643.
Proof.
  assert (Z.of_nat (length [2147483647; 1; -5]%Z) <= int_max) as Hsize
    by (vm_compute; discriminate).
  assert (length [2147483647; 1; -5]%Z < 4)%nat as Hfuel by (simpl; lia).
  split; [exact Hsize|]. split; [exact Hfuel|].
  apply (sum_loop_sums [2147483647; 1; -5] 4 Hsize Hfuel).
  vm_compute. split; discriminate.
Defined.
